(** * Actor model pit stop: a shallow embedding of
      [Concurrency/ActorModel/actor_model.py]

    The program runs on one asyncio event loop.  Each actor is embedded as
    a step function that performs one turn of its loop, from one [await]
    to the next, and the whole program as the interleaving of these steps
    under an arbitrary schedule.  The event loop suspends a task in
    [await self.mailbox.get()] only when the queue is empty, and in
    [await asyncio.sleep(1)]; a [put] on an unbounded [asyncio.Queue] never
    suspends.  So one resumption of a task by the event loop is one step
    or several consecutive steps of the same actor here: every run of the
    event loop is a schedule of the model, which has more interleavings
    than the event loop.  What holds of every schedule holds of the
    program; the number of steps of a schedule is not the number of
    resumptions of the event loop. *)

From stdpp Require Import gmap strings list fin_maps.

#[local] Set Warnings "-clear-no-such-hyp".

(** ** Data model *)

(** [class Position(Enum)], in declaration order. *)
Inductive Position := FRONT_LEFT | FRONT_RIGHT | REAR_LEFT | REAR_RIGHT.

(** [class MessageType(Enum)]. *)
Inductive MessageType := CHANGE_TIRE | TIRE_CHANGED | STOP.

#[global] Instance Position_eq_dec : EqDecision Position.
Proof. solve_decision. Defined.

#[global] Instance MessageType_eq_dec : EqDecision MessageType.
Proof. solve_decision. Defined.

Definition Position_index (p : Position) : nat :=
  match p with
  | FRONT_LEFT => 0 | FRONT_RIGHT => 1 | REAR_LEFT => 2 | REAR_RIGHT => 3
  end.

Definition Position_of_index (n : nat) : option Position :=
  match n with
  | 0 => Some FRONT_LEFT | 1 => Some FRONT_RIGHT
  | 2 => Some REAR_LEFT | 3 => Some REAR_RIGHT
  | _ => None
  end.

#[global] Instance Position_countable : Countable Position.
Proof.
  refine (inj_countable Position_index Position_of_index _).
  intros []; reflexivity.
Defined.

(** [Position.value]. *)
Definition Position_value (p : Position) : string :=
  match p with
  | FRONT_LEFT => "Front Left"%string
  | FRONT_RIGHT => "Front Right"%string
  | REAR_LEFT => "Rear Left"%string
  | REAR_RIGHT => "Rear Right"%string
  end.

(** Iterating over the enumeration ([for pos in Position], [set(Position)])
    visits the members in declaration order; the dictionary [crew_members]
    is built in that order and iterates in it. *)
Definition all_Position : list Position :=
  [FRONT_LEFT; FRONT_RIGHT; REAR_LEFT; REAR_RIGHT].

(** The [asyncio.Queue] objects of the program, by identity: the one made in
    [RaceEngineer.__init__] and the one made in each
    [PitCrewMember.__init__]. *)
Inductive MailboxRef := EngineerQ | CrewQ (p : Position).

#[global] Instance MailboxRef_eq_dec : EqDecision MailboxRef.
Proof. solve_decision. Defined.

(** [@dataclass class Message].  [position] is [None] in the stop message
    ([Message(MessageType.STOP, None)]); [sender_mailbox] defaults to
    [None]. *)
Record Message := mkMessage {
  msg_type : MessageType;
  position : option Position;
  sender_mailbox : option MailboxRef
}.

#[global] Instance Message_eq_dec : EqDecision Message.
Proof. solve_decision. Defined.

(** [Message(t, p)]: the third field takes its default. *)
Definition Message2 (t : MessageType) (p : option Position) : Message :=
  mkMessage t p None.

(** Exceptions the program can raise.  [KeyError] comes from [set.remove],
    [AttributeError] from [None.put]; [WorkerFailure] stands for a fault
    raised inside the simulated work, which the program never raises by
    itself (see [WorkFails] below). *)
Inductive Exn := KeyError | AttributeError | WorkerFailure.

#[global] Instance Exn_eq_dec : EqDecision Exn.
Proof. solve_decision. Defined.

(** What an actor does to the outside world, in program order. *)
Inductive Event :=
  | Log (line : string)                    (* logging.info(line) *)
  | Get (q : MailboxRef) (m : Message)     (* q.get() returned m *)
  | Put (q : MailboxRef) (m : Message)     (* q.put(m) *)
  | Sleep (p : Position).                  (* asyncio.sleep(1) entered *)

#[global] Instance Event_eq_dec : EqDecision Event.
Proof. solve_decision. Defined.

(** ** [class PitCrewMember] *)

(** Where the coroutine [PitCrewMember.run] stands. *)
Inductive CrewCtl :=
  | CrewNotStarted                 (* no task created yet *)
  | CrewReceiving                  (* line 37: at self.mailbox.get() *)
  | CrewSleeping (msg : Message)   (* line 43: inside asyncio.sleep(1) *)
  | CrewFinished                   (* left the loop through break *)
  | CrewRaised (e : Exn).          (* ended by an exception *)

#[global] Instance CrewCtl_eq_dec : EqDecision CrewCtl.
Proof. solve_decision. Defined.

Record PitCrewMember := mkPitCrewMember {
  crew_position : Position;
  crew_mailbox : list Message;
  crew_ctl : CrewCtl
}.

#[global] Instance PitCrewMember_eq_dec : EqDecision PitCrewMember.
Proof. solve_decision. Defined.

(** [PitCrewMember.__init__]. *)
Definition PitCrewMember_init (pos : Position) : PitCrewMember :=
  mkPitCrewMember pos [] CrewNotStarted.

Definition starting_line (pos : Position) : string :=
  ("Starting tire change at " ++ Position_value pos)%string.

Definition completed_line (pos : Position) : string :=
  ("Completed tire change at " ++ Position_value pos)%string.

(** One turn of [PitCrewMember.run], from one [await] to the next: the new
    state of the member and the events of the turn.  [None]: the coroutine
    cannot run (empty mailbox, not started, or over). *)
Definition PitCrewMember_run (self : PitCrewMember)
    : option (PitCrewMember * list Event) :=
  let pos := crew_position self in
  match crew_ctl self with
  | CrewReceiving =>
      match crew_mailbox self with
      | [] => None
      | msg :: rest =>
          match msg_type msg with
          | STOP =>
              Some (mkPitCrewMember pos rest CrewFinished,
                    [Get (CrewQ pos) msg])
          | CHANGE_TIRE =>
              Some (mkPitCrewMember pos rest (CrewSleeping msg),
                    [Get (CrewQ pos) msg; Log (starting_line pos); Sleep pos])
          | TIRE_CHANGED =>
              Some (mkPitCrewMember pos rest CrewReceiving,
                    [Get (CrewQ pos) msg])
          end
      end
  | CrewSleeping msg =>
      let response := Message2 TIRE_CHANGED (Some pos) in
      match sender_mailbox msg with
      | Some q =>
          Some (mkPitCrewMember pos (crew_mailbox self) CrewReceiving,
                [Log (completed_line pos); Put q response])
      | None =>
          Some (mkPitCrewMember pos (crew_mailbox self)
                  (CrewRaised AttributeError),
                [Log (completed_line pos)])
      end
  | CrewNotStarted | CrewFinished | CrewRaised _ => None
  end.

(** ** [class RaceEngineer] *)

(** Where the coroutine [RaceEngineer.coordinate_pit_stop] stands. *)
Inductive EngineerCtl :=
  | EngNotStarted                  (* constructed, coroutine not entered *)
  | EngInRun                       (* line 88: inside self.run() *)
  | EngGathering                   (* line 95: at asyncio.gather *)
  | EngReturned                    (* coordinate_pit_stop returned *)
  | EngRaised (e : Exn).           (* ended by an exception *)

#[global] Instance EngineerCtl_eq_dec : EqDecision EngineerCtl.
Proof. solve_decision. Defined.

Record RaceEngineer := mkRaceEngineer {
  mailbox : list Message;
  crew_members : gmap Position PitCrewMember;
  pending_changes : gset Position;
  ctl : EngineerCtl
}.

(** [RaceEngineer.__init__]. *)
Definition RaceEngineer_init : RaceEngineer :=
  mkRaceEngineer []
    (list_to_map (map (fun pos => (pos, PitCrewMember_init pos)) all_Position))
    (list_to_set all_Position)
    EngNotStarted.

(** [q.put(m)] on the queue named [q]. *)
Definition put (q : MailboxRef) (m : Message) (self : RaceEngineer)
    : RaceEngineer :=
  match q with
  | EngineerQ =>
      mkRaceEngineer (mailbox self ++ [m]) (crew_members self)
        (pending_changes self) (ctl self)
  | CrewQ p =>
      mkRaceEngineer (mailbox self)
        (alter (fun c => mkPitCrewMember (crew_position c)
                           (crew_mailbox c ++ [m]) (crew_ctl c))
               p (crew_members self))
        (pending_changes self) (ctl self)
  end.

(** The queue operations among the events of a run, applied in order. *)
Fixpoint deliver (evs : list Event) (self : RaceEngineer) : RaceEngineer :=
  match evs with
  | [] => self
  | Put q m :: evs' => deliver evs' (put q m self)
  | _ :: evs' => deliver evs' self
  end.

Definition set_ctl (c : EngineerCtl) (self : RaceEngineer) : RaceEngineer :=
  mkRaceEngineer (mailbox self) (crew_members self) (pending_changes self) c.

Definition all_complete_line : string :=
  "All tire changes complete - Car clear to exit"%string.

(** One turn of the loop of [RaceEngineer.run]. *)
Inductive RunOutcome :=
  | RunReturn                                   (* the loop condition failed *)
  | RunAwait                                    (* suspended in get() *)
  | RunNext (self' : RaceEngineer) (evs : list Event)
  | RunRaise (e : Exn) (self' : RaceEngineer) (evs : list Event).

Definition RaceEngineer_run (self : RaceEngineer) : RunOutcome :=
  if decide (pending_changes self = ∅) then RunReturn
  else
    match mailbox self with
    | [] => RunAwait
    | msg :: rest =>
        let self1 :=
          mkRaceEngineer rest (crew_members self) (pending_changes self)
            (ctl self) in
        let got := Get EngineerQ msg in
        match msg_type msg with
        | TIRE_CHANGED =>
            match position msg with
            | Some p =>
                if decide (p ∈ pending_changes self) then
                  let pending' := pending_changes self ∖ {[p]} in
                  let self2 :=
                    mkRaceEngineer rest (crew_members self) pending'
                      (ctl self) in
                  if decide (pending' = ∅)
                  then RunNext self2 [got; Log all_complete_line]
                  else RunNext self2 [got]
                else RunRaise KeyError self1 [got]
            | None => RunRaise KeyError self1 [got]
            end
        | CHANGE_TIRE | STOP => RunNext self1 [got]
        end
    end.

(** [asyncio.create_task(member.run())]: a fresh coroutine, standing at the
    top of its loop. *)
Definition create_task (c : PitCrewMember) : PitCrewMember :=
  mkPitCrewMember (crew_position c) (crew_mailbox c) CrewReceiving.

(** The keys of [crew_members] in iteration order. *)
Definition crew_keys (self : RaceEngineer) : list Position :=
  filter (fun p => is_Some (crew_members self !! p)) all_Position.

(** The states of [crew_tasks], in list order. *)
Definition crew_tasks (self : RaceEngineer) : list CrewCtl :=
  omap (fun p => crew_ctl <$> crew_members self !! p) all_Position.

Definition entering_line : string := "Car entering pit lane"%string.

Definition change_tire_message (pos : Position) : Message :=
  mkMessage CHANGE_TIRE (Some pos) (Some EngineerQ).

Definition stop_message : Message := Message2 STOP None.

(** Lines 70 to 85: the log line, the tasks, one [CHANGE_TIRE] per member. *)
Definition dispatch_events (self : RaceEngineer) : list Event :=
  Log entering_line
    :: map (fun pos => Put (CrewQ pos) (change_tire_message pos))
         (crew_keys self).

(** Lines 91 and 92: one [STOP] per member. *)
Definition stop_events (self : RaceEngineer) : list Event :=
  map (fun pos => Put (CrewQ pos) stop_message) (crew_keys self).

Fixpoint first_raised (l : list CrewCtl) : option Exn :=
  match l with
  | [] => None
  | CrewRaised e :: _ => Some e
  | _ :: l' => first_raised l'
  end.

Definition is_finished (c : CrewCtl) : bool :=
  match c with CrewFinished => true | _ => false end.

(** One turn of [RaceEngineer.coordinate_pit_stop]: everything up to the
    first [get()], one turn of the loop of [run], everything from the end
    of [run] to [asyncio.gather], or the end of the gather.  The result is
    the new state of the engineer, before the queue operations of the turn
    are applied, and the events of the turn.  [asyncio.gather] re-raises
    the exception of the task that fails first; this embedding does not
    record when a task failed and takes the first failed task in list
    order, which is the same whenever at most one task has failed. *)
Definition coordinate_pit_stop (self : RaceEngineer)
    : option (RaceEngineer * list Event) :=
  match ctl self with
  | EngNotStarted =>
      Some (mkRaceEngineer (mailbox self) (create_task <$> crew_members self)
              (pending_changes self) EngInRun,
            dispatch_events self)
  | EngInRun =>
      match RaceEngineer_run self with
      | RunReturn => Some (set_ctl EngGathering self, stop_events self)
      | RunAwait => None
      | RunNext self' evs => Some (self', evs)
      | RunRaise e self' evs => Some (set_ctl (EngRaised e) self', evs)
      end
  | EngGathering =>
      match first_raised (crew_tasks self) with
      | Some e => Some (set_ctl (EngRaised e) self, [])
      | None =>
          if forallb is_finished (crew_tasks self)
          then Some (set_ctl EngReturned self, [])
          else None
      end
  | EngReturned | EngRaised _ => None
  end.

(** ** The program under a schedule *)

(** The state of the program: the engineer, which owns the crew, and the
    events so far, oldest first. *)
Record System := mkSystem {
  engineer : RaceEngineer;
  trace : list Event
}.

(** [main]: [engineer = RaceEngineer()]. *)
Definition main_init : System := mkSystem RaceEngineer_init [].

(** [asyncio.run(main())] closes the loop, cancelling the tasks left, as
    soon as [coordinate_pit_stop] is over. *)
Definition loop_running (self : RaceEngineer) : bool :=
  match ctl self with
  | EngReturned | EngRaised _ => false
  | _ => true
  end.

Definition set_member (p : Position) (c : PitCrewMember)
    (self : RaceEngineer) : RaceEngineer :=
  mkRaceEngineer (mailbox self) (<[p := c]> (crew_members self))
    (pending_changes self) (ctl self).

Definition commit (self : RaceEngineer) (evs : list Event) (s : System)
    : System :=
  mkSystem (deliver evs self) (trace s ++ evs).

(** What the event loop can do next: resume the coordinator, or resume the
    task of a crew member.  [WorkFails p] is not a step of the program: it
    stands for an exception raised inside [await asyncio.sleep(1)] of the
    member at [p], which ends that task without a completion message.
    Schedules without it are the runs of the program itself. *)
Inductive Label :=
  | RunEngineer
  | RunCrew (p : Position)
  | WorkFails (p : Position).

Definition step (l : Label) (s : System) : option System :=
  let self := engineer s in
  match l with
  | RunEngineer =>
      match coordinate_pit_stop self with
      | Some (self', evs) => Some (commit self' evs s)
      | None => None
      end
  | RunCrew p =>
      if loop_running self then
        match crew_members self !! p with
        | Some c =>
            match PitCrewMember_run c with
            | Some (c', evs) => Some (commit (set_member p c' self) evs s)
            | None => None
            end
        | None => None
        end
      else None
  | WorkFails p =>
      if loop_running self then
        match crew_members self !! p with
        | Some c =>
            match crew_ctl c with
            | CrewSleeping _ =>
                Some (commit
                        (set_member p
                           (mkPitCrewMember (crew_position c) (crew_mailbox c)
                              (CrewRaised WorkerFailure)) self) [] s)
            | _ => None
            end
        | None => None
        end
      else None
  end.

(** A schedule, run from [s]; [None] when it asks for a step that cannot be
    taken. *)
Fixpoint exec (sched : list Label) (s : System) : option System :=
  match sched with
  | [] => Some s
  | l :: sched' =>
      match step l s with
      | Some s' => exec sched' s'
      | None => None
      end
  end.

Definition is_program_step (l : Label) : bool :=
  match l with WorkFails _ => false | _ => true end.

(** A schedule of the program alone: nothing fails. *)
Definition fault_free (sched : list Label) : bool :=
  forallb is_program_step sched.

(** ** Notions used in the statements *)

(** The completion message of the member at [p]:
    [Message(MessageType.TIRE_CHANGED, self.position)]. *)
Definition completion (p : Position) : Message :=
  Message2 TIRE_CHANGED (Some p).

(** [ev] puts a completion message for [p] in the engineer's mailbox. *)
Definition is_completion_put (p : Position) (ev : Event) : bool :=
  match ev with
  | Put EngineerQ m =>
      bool_decide (msg_type m = TIRE_CHANGED ∧ position m = Some p)
  | _ => false
  end.

(** [ev] puts a stop message in some mailbox. *)
Definition is_stop_put (ev : Event) : bool :=
  match ev with
  | Put _ m => bool_decide (msg_type m = STOP)
  | _ => false
  end.

(** [ev] puts a work message in some mailbox. *)
Definition is_work_put (ev : Event) : bool :=
  match ev with
  | Put _ m => bool_decide (msg_type m = CHANGE_TIRE)
  | _ => false
  end.

(** [ev] is the engineer taking a message from its own mailbox. *)
Definition is_engineer_get (ev : Event) : bool :=
  match ev with
  | Get EngineerQ _ => true
  | _ => false
  end.

Definition is_put (ev : Event) : bool :=
  match ev with Put _ _ => true | _ => false end.

(** The engineer as [coordinate_pit_stop] leaves it when it first suspends
    in [run]: tasks created, work dispatched, nothing received yet. *)
Definition dispatched_engineer : RaceEngineer :=
  deliver (dispatch_events RaceEngineer_init)
    (mkRaceEngineer [] (create_task <$> crew_members RaceEngineer_init)
       (pending_changes RaceEngineer_init) EngInRun).

(** The loop of [RaceEngineer.run] fed with the messages [arrivals], each
    arriving while the loop is suspended in [get()]: the pending sets the
    loop goes through, and how it stands after the last arrival. *)
Fixpoint aggregate (arrivals : list Message) (self : RaceEngineer)
    : list (gset Position) * RunOutcome :=
  match arrivals with
  | [] => ([pending_changes self], RaceEngineer_run self)
  | m :: arrivals' =>
      match RaceEngineer_run (put EngineerQ m self) with
      | RunNext self' _ =>
          let '(sets, out) := aggregate arrivals' self' in
          (pending_changes self :: sets, out)
      | out => ([pending_changes self], out)
      end
  end.


(** ** Where a member stands in the protocol *)

Inductive Stage :=
  | Queued       (* work message in the mailbox, not yet taken *)
  | Working      (* asleep on the work message *)
  | Failed       (* the simulated work failed *)
  | Signalled    (* completion put, not yet taken by the engineer *)
  | Acked        (* completion taken by the engineer *)
  | Stopping     (* stop message in the mailbox, not yet taken *)
  | Stopped.     (* left its loop *)

#[global] Instance Stage_eq_dec : EqDecision Stage.
Proof. solve_decision. Defined.

Definition stage_member (p : Position) (st : Stage) : PitCrewMember :=
  match st with
  | Queued => mkPitCrewMember p [change_tire_message p] CrewReceiving
  | Working => mkPitCrewMember p [] (CrewSleeping (change_tire_message p))
  | Failed => mkPitCrewMember p [] (CrewRaised WorkerFailure)
  | Signalled | Acked => mkPitCrewMember p [] CrewReceiving
  | Stopping => mkPitCrewMember p [stop_message] CrewReceiving
  | Stopped => mkPitCrewMember p [] CrewFinished
  end.

Definition stage_pending (st : Stage) : bool :=
  match st with
  | Queued | Working | Failed | Signalled => true
  | Acked | Stopping | Stopped => false
  end.

Definition stage_shutdown (st : Stage) : bool :=
  match st with
  | Stopping | Stopped => true
  | _ => false
  end.

(** Steps still to come that the stage accounts for. *)
Definition stage_weight (st : Stage) : nat :=
  match st with
  | Queued => 3
  | Working => 2
  | Failed | Signalled | Stopping => 1
  | Acked | Stopped => 0
  end.

Definition ctl_weight (c : EngineerCtl) : nat :=
  match c with
  | EngInRun => 6
  | EngGathering => 1
  | _ => 0
  end.

Definition total_weight (σ : Position → Stage) : nat :=
  stage_weight (σ FRONT_LEFT) + stage_weight (σ FRONT_RIGHT)
  + stage_weight (σ REAR_LEFT) + stage_weight (σ REAR_RIGHT).

Definition set_stage (σ : Position → Stage) (p : Position) (st : Stage)
    : Position → Stage :=
  fun p' => if decide (p' = p) then st else σ p'.

Definition ctl_ok (c : EngineerCtl) (σ : Position → Stage) : Prop :=
  match c with
  | EngInRun => ∀ p, stage_shutdown (σ p) = false
  | EngGathering => ∀ p, stage_shutdown (σ p) = true
  | EngReturned => ∀ p, σ p = Stopped
  | EngNotStarted | EngRaised _ => False
  end.

(** The number of steps of this embedding in a complete schedule: one
    dispatch, two steps of each member for its work, one turn of the
    engineer's loop for each completion, one shutdown, one step of each
    member for its stop message, one gather.  It is the measure that
    decreases along a schedule, not a number of resumptions of the event
    loop. *)
Definition full_run_length : nat := 19.

(** The state after the schedule [sched], once the coordinator has
    started, is described by a stage for each position and the list [l] of
    the positions whose completion is in the engineer's mailbox. *)
Record running_inv (sched : list Label) (s : System)
    (σ : Position → Stage) (l : list Position) : Prop := {
  ri_crew :
    ∀ p, crew_members (engineer s) !! p = Some (stage_member p (σ p));
  ri_mailbox : mailbox (engineer s) = completion <$> l;
  ri_nodup : NoDup l;
  ri_signalled : ∀ p, p ∈ l ↔ σ p = Signalled;
  ri_pending :
    ∀ p, p ∈ pending_changes (engineer s) ↔ stage_pending (σ p) = true;
  ri_ctl : ctl_ok (ctl (engineer s)) σ;
  ri_sent :
    ∀ p, σ p = Signalled ∨ stage_pending (σ p) = false →
         Put EngineerQ (completion p) ∈ trace s;
  ri_failed : ∀ p, σ p = Failed → fault_free sched = false;
  ri_rank :
    length sched + ctl_weight (ctl (engineer s)) + total_weight σ
    = full_run_length
}.

Definition inv (sched : list Label) (s : System) : Prop :=
  (sched = [] ∧ s = main_init) ∨ ∃ σ l, running_inv sched s σ l.

(** The work messages of the dispatch, in the order they are put. *)
Definition work_puts : list Event :=
  (fun pos => Put (CrewQ pos) (change_tire_message pos)) <$> all_Position.

Definition dispatched_system : System :=
  mkSystem dispatched_engineer (dispatch_events RaceEngineer_init).

(** ** The events of a step *)

Definition stop_puts : list Event :=
  (fun pos => Put (CrewQ pos) stop_message) <$> all_Position.

(** The steps possible from [s], described by the stages [σ], with their
    events and what they do to the coordinator. *)
Inductive protocol_events (s s' : System) (σ : Position → Stage)
    : Label → list Event → Prop :=
  | pe_shutdown :
      ctl (engineer s) = EngInRun →
      pending_changes (engineer s) = ∅ →
      (∀ p, σ p = Acked) →
      ctl (engineer s') = EngGathering →
      protocol_events s s' σ RunEngineer stop_puts
  | pe_ack p evs :
      σ p = Signalled →
      evs = [Get EngineerQ (completion p)]
      ∨ evs = [Get EngineerQ (completion p); Log all_complete_line] →
      ctl (engineer s) = EngInRun →
      ctl (engineer s') = EngInRun →
      protocol_events s s' σ RunEngineer evs
  | pe_gather :
      ctl (engineer s) = EngGathering →
      ctl (engineer s') = EngReturned →
      protocol_events s s' σ RunEngineer []
  | pe_start p :
      σ p = Queued →
      ctl (engineer s') = ctl (engineer s) →
      protocol_events s s' σ (RunCrew p)
        [Get (CrewQ p) (change_tire_message p); Log (starting_line p);
         Sleep p]
  | pe_reply p :
      σ p = Working →
      ctl (engineer s') = ctl (engineer s) →
      protocol_events s s' σ (RunCrew p)
        [Log (completed_line p); Put EngineerQ (completion p)]
  | pe_stop p :
      σ p = Stopping →
      ctl (engineer s') = ctl (engineer s) →
      protocol_events s s' σ (RunCrew p) [Get (CrewQ p) stop_message]
  | pe_fail p :
      ctl (engineer s') = ctl (engineer s) →
      protocol_events s s' σ (WorkFails p) [].

(** [ev] puts a stop message in the mailbox of [p], or is [p] taking one
    from it. *)
Definition is_stop_for (p : Position) (ev : Event) : bool :=
  match ev with
  | Put (CrewQ p') m | Get (CrewQ p') m =>
      bool_decide (p' = p ∧ msg_type m = STOP)
  | _ => false
  end.

(** ** Sample inputs *)

Definition sample_member (msg : Message) (c : CrewCtl) : PitCrewMember :=
  mkPitCrewMember REAR_LEFT [msg; stop_message] c.

(** The engineer once the rear left change has been acknowledged, the other
    three members still having their work message in their mailbox, with a
    second completion message for the rear left wheel in its mailbox. *)
Definition duplicate_input : RaceEngineer :=
  mkRaceEngineer [completion REAR_LEFT]
    (<[REAR_LEFT := mkPitCrewMember REAR_LEFT [] CrewReceiving]>
       (crew_members dispatched_engineer))
    (list_to_set [FRONT_LEFT; FRONT_RIGHT; REAR_RIGHT])
    EngInRun.

(** A complete run: the rear left member is the first to finish. *)
Definition full_schedule : list Label :=
  [RunEngineer;
   RunCrew REAR_LEFT; RunCrew FRONT_LEFT; RunCrew REAR_LEFT;
   RunCrew REAR_RIGHT; RunCrew FRONT_RIGHT; RunCrew FRONT_LEFT;
   RunEngineer;
   RunCrew REAR_RIGHT; RunCrew FRONT_RIGHT;
   RunEngineer; RunEngineer; RunEngineer; RunEngineer;
   RunCrew FRONT_LEFT; RunCrew REAR_RIGHT; RunCrew FRONT_RIGHT;
   RunCrew REAR_LEFT;
   RunEngineer].

Definition full_system : System :=
  default main_init (exec full_schedule main_init).

(** A run in which the work of the front left member fails, the three
    others complete and the engineer has taken their completions. *)
Definition stalled_schedule : list Label :=
  [RunEngineer;
   RunCrew FRONT_LEFT; WorkFails FRONT_LEFT;
   RunCrew FRONT_RIGHT; RunCrew REAR_LEFT; RunCrew REAR_RIGHT;
   RunCrew REAR_RIGHT; RunCrew REAR_LEFT; RunCrew FRONT_RIGHT;
   RunEngineer; RunEngineer; RunEngineer].

Definition stalled_system : System :=
  default main_init (exec stalled_schedule main_init).

(** ** Notions used in the further properties *)

(** No position is pending any more. *)
Definition all_acked (σ : Position → Stage) : bool :=
  forallb (fun p => negb (stage_pending (σ p))) all_Position.

(** How a step moves the stages [σ] and the positions [lst] whose
    completion is in the engineer's mailbox, with the events of the step. *)
Inductive protocol_move (σ σ' : Position → Stage) (lst lst' : list Position)
    : Label → list Event → Prop :=
  | pm_shutdown :
      (∀ p, σ p = Acked) → σ' = (fun _ => Stopping) →
      lst = [] → lst' = [] →
      protocol_move σ σ' lst lst' RunEngineer stop_puts
  | pm_ack p :
      σ p = Signalled → σ' = set_stage σ p Acked →
      lst = p :: lst' →
      protocol_move σ σ' lst lst' RunEngineer
        (Get EngineerQ (completion p)
           :: if all_acked σ' then [Log all_complete_line] else [])
  | pm_gather :
      (∀ p, σ p = Stopped) → σ' = σ → lst' = lst →
      protocol_move σ σ' lst lst' RunEngineer []
  | pm_start p :
      σ p = Queued → σ' = set_stage σ p Working → lst' = lst →
      protocol_move σ σ' lst lst' (RunCrew p)
        [Get (CrewQ p) (change_tire_message p); Log (starting_line p);
         Sleep p]
  | pm_reply p :
      σ p = Working → σ' = set_stage σ p Signalled → lst' = lst ++ [p] →
      protocol_move σ σ' lst lst' (RunCrew p)
        [Log (completed_line p); Put EngineerQ (completion p)]
  | pm_stop p :
      σ p = Stopping → σ' = set_stage σ p Stopped → lst' = lst →
      protocol_move σ σ' lst lst' (RunCrew p) [Get (CrewQ p) stop_message]
  | pm_fail p :
      σ p = Working → σ' = set_stage σ p Failed → lst' = lst →
      protocol_move σ σ' lst lst' (WorkFails p) [].

(** [ev] is an event of the crew member at [p]: a message taken from its
    mailbox, one of its two log lines, its sleep, or a message carrying its
    position put in the engineer's mailbox. *)
Definition is_crew_event (p : Position) (ev : Event) : bool :=
  match ev with
  | Log line => bool_decide (line = starting_line p ∨ line = completed_line p)
  | Get (CrewQ p') _ => bool_decide (p' = p)
  | Get EngineerQ _ => false
  | Put EngineerQ m => bool_decide (position m = Some p)
  | Put (CrewQ _) _ => false
  | Sleep p' => bool_decide (p' = p)
  end.

(** The events of the member at [p] up to a stage. *)
Definition crew_events (p : Position) (st : Stage) : list Event :=
  match st with
  | Queued => []
  | Working | Failed =>
      [Get (CrewQ p) (change_tire_message p); Log (starting_line p); Sleep p]
  | Signalled | Acked | Stopping =>
      [Get (CrewQ p) (change_tire_message p); Log (starting_line p); Sleep p;
       Log (completed_line p); Put EngineerQ (completion p)]
  | Stopped =>
      [Get (CrewQ p) (change_tire_message p); Log (starting_line p); Sleep p;
       Log (completed_line p); Put EngineerQ (completion p);
       Get (CrewQ p) stop_message]
  end.

(** [ev] is the log line of the engineer's loop. *)
Definition is_all_complete_log (ev : Event) : bool :=
  match ev with
  | Log line => bool_decide (line = all_complete_line)
  | _ => false
  end.

(** The messages put in the queue [q], oldest first. *)
Definition queue_puts (q : MailboxRef) (tr : list Event) : list Message :=
  omap (fun ev =>
          match ev with
          | Put q' m => if decide (q' = q) then Some m else None
          | _ => None
          end) tr.

(** The messages taken from the queue [q], oldest first. *)
Definition queue_gets (q : MailboxRef) (tr : list Event) : list Message :=
  omap (fun ev =>
          match ev with
          | Get q' m => if decide (q' = q) then Some m else None
          | _ => None
          end) tr.

(** The messages waiting in the queue [q]. *)
Definition queue_content (q : MailboxRef) (self : RaceEngineer)
    : list Message :=
  match q with
  | EngineerQ => mailbox self
  | CrewQ p =>
      match crew_members self !! p with
      | Some c => crew_mailbox c
      | None => []
      end
  end.

(** The messages waiting in the queue [q], read off the stages. *)
Definition stage_content (σ : Position → Stage) (lst : list Position)
    (q : MailboxRef) : list Message :=
  match q with
  | EngineerQ => completion <$> lst
  | CrewQ p => crew_mailbox (stage_member p (σ p))
  end.

(** The member after a turn that left it as [c] with the events [evs]:
    what the turn put in the member's own mailbox is now waiting there. *)
Definition deliver_own (c : PitCrewMember) (evs : list Event)
    : PitCrewMember :=
  mkPitCrewMember (crew_position c)
    (crew_mailbox c ++ queue_puts (CrewQ (crew_position c)) evs)
    (crew_ctl c).

(** [PitCrewMember.run] taking up to [fuel] turns while no other actor puts
    a message in the member's mailbox: the member at the end and the events
    of these turns. *)
Fixpoint PitCrewMember_run_alone (fuel : nat) (self : PitCrewMember)
    : PitCrewMember * list Event :=
  match fuel with
  | 0 => (self, [])
  | S fuel' =>
      match PitCrewMember_run self with
      | None => (self, [])
      | Some (c, evs) =>
          let '(c', evs') :=
            PitCrewMember_run_alone fuel' (deliver_own c evs) in
          (c', evs ++ evs')
      end
  end.

(** The completion messages a member at [pos] owes for the messages
    [msgs]: one for each work message, to the reply queue it names. *)
Definition replies (pos : Position) (msgs : list Message) : list Event :=
  omap (fun m =>
          match msg_type m with
          | CHANGE_TIRE =>
              (fun q => Put q (completion pos)) <$> sender_mailbox m
          | _ => None
          end) msgs.

(** A message the member at [pos] gets over without ending and without
    writing to itself: not a stop message, and if a work message, one that
    names a reply queue other than the member's own mailbox. *)
Definition answerable (pos : Position) (m : Message) : Prop :=
  msg_type m ≠ STOP
  ∧ (msg_type m = CHANGE_TIRE →
     ∃ q, sender_mailbox m = Some q ∧ q ≠ CrewQ pos).

(** A run stopped when two completion messages are waiting in the
    engineer's mailbox. *)
Definition waiting_schedule : list Label :=
  [RunEngineer;
   RunCrew FRONT_LEFT; RunCrew REAR_LEFT;
   RunCrew REAR_LEFT; RunCrew FRONT_LEFT].

Definition waiting_system : System :=
  default main_init (exec waiting_schedule main_init).

(** * Properties of one actor *)

Section CrewMember.
Variable self : PitCrewMember.
Let pos := crew_position self.

Lemma PitCrewMember_run_keeps_position c evs :
  PitCrewMember_run self = Some (c, evs) → crew_position c = pos.
Proof.
  unfold PitCrewMember_run.
  destruct (crew_ctl self); try discriminate.
  - destruct (crew_mailbox self) as [|m rest]; [discriminate|].
    destruct (msg_type m); intros [= <- _]; reflexivity.
  - destruct (sender_mailbox msg); intros [= <- _]; reflexivity.
Qed.

(** C5: a member taking a message from its mailbox leaves the loop for
    good on a stop message; on a work message that names a reply queue it
    logs, sleeps, logs, and puts one completion message carrying its own
    position in that queue, and is back at the top of its loop with
    nothing else changed. *)
Theorem crew_member_handles_stop_and_work (msg : Message)
    (rest : list Message) :
  crew_ctl self = CrewReceiving →
  crew_mailbox self = msg :: rest →
  (msg_type msg = STOP →
     PitCrewMember_run self
       = Some (mkPitCrewMember pos rest CrewFinished, [Get (CrewQ pos) msg])
     ∧ PitCrewMember_run (mkPitCrewMember pos rest CrewFinished) = None)
  ∧ (msg_type msg = CHANGE_TIRE →
     ∀ q, sender_mailbox msg = Some q →
       PitCrewMember_run self
         = Some (mkPitCrewMember pos rest (CrewSleeping msg),
                 [Get (CrewQ pos) msg; Log (starting_line pos); Sleep pos])
       ∧ PitCrewMember_run (mkPitCrewMember pos rest (CrewSleeping msg))
         = Some (mkPitCrewMember pos rest CrewReceiving,
                 [Log (completed_line pos); Put q (completion pos)])).
Proof.
  intros Hctl Hbox. split.
  - intros Hty. split; [|reflexivity].
    unfold PitCrewMember_run. rewrite Hctl, Hbox, Hty. reflexivity.
  - intros Hty q Hq. split.
    + unfold PitCrewMember_run. rewrite Hctl, Hbox, Hty. reflexivity.
    + unfold PitCrewMember_run. cbn. rewrite Hq. reflexivity.
Qed.

(** C8: a member that wakes from its sleep on a work message puts its
    completion message exactly when the message names a reply queue; when
    the field is [None], as the two-argument constructor leaves it, the
    member logs and ends with [AttributeError], and nothing is put. *)
Theorem reply_needs_sender_mailbox (msg : Message) :
  crew_ctl self = CrewSleeping msg →
  (∀ t p, sender_mailbox (Message2 t p) = None)
  ∧ (sender_mailbox msg = None →
     PitCrewMember_run self
       = Some (mkPitCrewMember pos (crew_mailbox self)
                 (CrewRaised AttributeError),
               [Log (completed_line pos)]))
  ∧ (∀ c evs, PitCrewMember_run self = Some (c, evs) →
       (∃ q, sender_mailbox msg = Some q
             ∧ evs = [Log (completed_line pos); Put q (completion pos)]
             ∧ crew_ctl c = CrewReceiving)
       ∨ (sender_mailbox msg = None
          ∧ filter is_put evs = []
          ∧ crew_ctl c = CrewRaised AttributeError)).
Proof.
  intros Hctl. split; [reflexivity|]. split.
  - intros Hnone. unfold PitCrewMember_run. rewrite Hctl, Hnone.
    reflexivity.
  - intros c evs. unfold PitCrewMember_run. rewrite Hctl.
    destruct (sender_mailbox msg) as [q|]; intros [= <- <-].
    + left. exists q. auto.
    + right. auto.
Qed.

(** C10: a member taking from its mailbox a message that is neither a
    stop nor a work message only removes it: nothing is logged, slept or
    put, and the member is at the top of its loop as before. *)
Theorem crew_member_discards_other_messages (msg : Message)
    (rest : list Message) :
  crew_ctl self = CrewReceiving →
  crew_mailbox self = msg :: rest →
  msg_type msg ≠ STOP →
  msg_type msg ≠ CHANGE_TIRE →
  PitCrewMember_run self
    = Some (mkPitCrewMember pos rest CrewReceiving, [Get (CrewQ pos) msg]).
Proof.
  intros Hctl Hbox Hstop Hwork. unfold PitCrewMember_run.
  rewrite Hctl, Hbox. destruct (msg_type msg); [congruence | reflexivity | congruence].
Qed.
End CrewMember.

Lemma crew_member_handles_stop_and_work_witness :
  PitCrewMember_run
    (sample_member (change_tire_message REAR_LEFT) CrewReceiving)
  = Some (mkPitCrewMember REAR_LEFT [stop_message]
            (CrewSleeping (change_tire_message REAR_LEFT)),
          [Get (CrewQ REAR_LEFT) (change_tire_message REAR_LEFT);
           Log "Starting tire change at Rear Left"%string; Sleep REAR_LEFT])
  ∧ PitCrewMember_run
      (mkPitCrewMember REAR_LEFT [stop_message]
         (CrewSleeping (change_tire_message REAR_LEFT)))
    = Some (mkPitCrewMember REAR_LEFT [stop_message] CrewReceiving,
            [Log "Completed tire change at Rear Left"%string;
             Put EngineerQ (completion REAR_LEFT)]).
Proof.
  exact (proj2 (crew_member_handles_stop_and_work
                  (sample_member (change_tire_message REAR_LEFT) CrewReceiving)
                  (change_tire_message REAR_LEFT) [stop_message]
                  eq_refl eq_refl)
           eq_refl EngineerQ eq_refl).
Defined.

Lemma reply_needs_sender_mailbox_witness :
  PitCrewMember_run
    (sample_member stop_message
       (CrewSleeping (Message2 CHANGE_TIRE (Some REAR_LEFT))))
  = Some (sample_member stop_message (CrewRaised AttributeError),
          [Log "Completed tire change at Rear Left"%string]).
Proof.
  exact (proj1 (proj2 (reply_needs_sender_mailbox
                         (sample_member stop_message
                            (CrewSleeping
                               (Message2 CHANGE_TIRE (Some REAR_LEFT))))
                         (Message2 CHANGE_TIRE (Some REAR_LEFT)) eq_refl))
           eq_refl).
Defined.

Lemma crew_member_discards_other_messages_witness :
  PitCrewMember_run (sample_member (completion FRONT_LEFT) CrewReceiving)
  = Some (mkPitCrewMember REAR_LEFT [stop_message] CrewReceiving,
          [Get (CrewQ REAR_LEFT) (completion FRONT_LEFT)]).
Proof.
  apply (crew_member_discards_other_messages
           (sample_member (completion FRONT_LEFT) CrewReceiving)
           (completion FRONT_LEFT) [stop_message]);
    [reflexivity | reflexivity | discriminate | discriminate].
Defined.

Lemma RaceEngineer_run_return (self : RaceEngineer) :
  RaceEngineer_run self = RunReturn ↔ pending_changes self = ∅.
Proof.
  unfold RaceEngineer_run. case_decide as Hp; [tauto|].
  split; [|tauto].
  destruct (mailbox self) as [|m rest]; [discriminate|].
  destruct (msg_type m); try discriminate.
  destruct (position m) as [p|]; [|discriminate].
  repeat case_decide; discriminate.
Qed.

Section Engineer.
Variable self : RaceEngineer.

(** C9: in the loop of [run], a message whose type is not [TIRE_CHANGED]
    is taken from the mailbox and dropped: the pending set, the crew and
    the place in the program are as before, nothing is logged or put, and
    the loop goes on to its next turn. *)
Theorem engineer_discards_other_messages (msg : Message)
    (rest : list Message) :
  ctl self = EngInRun →
  pending_changes self ≠ ∅ →
  mailbox self = msg :: rest →
  msg_type msg ≠ TIRE_CHANGED →
  let self' :=
    mkRaceEngineer rest (crew_members self) (pending_changes self) EngInRun
  in
  coordinate_pit_stop self = Some (self', [Get EngineerQ msg])
  ∧ RaceEngineer_run self' ≠ RunReturn.
Proof.
  intros Hctl Hpend Hbox Hty self'. split.
  - unfold coordinate_pit_stop, RaceEngineer_run.
    rewrite Hctl, Hbox. rewrite decide_False by done.
    destruct (msg_type msg); [reflexivity | done | reflexivity].
  - intros Hret. apply Hpend.
    by apply RaceEngineer_run_return in Hret.
Qed.

(** C1, as the program has it: in the loop of [run], a [TIRE_CHANGED]
    message whose position is not in the pending set (removed before, or
    [None]) is taken from the mailbox and [set.remove] raises [KeyError].
    The pending set is left as it was and nothing is logged or put, but
    [run] and [coordinate_pit_stop] end with the exception, and the
    coordinator takes no further step: no stop message is ever sent. *)
Theorem duplicate_completion_raises_KeyError (msg : Message)
    (rest : list Message) :
  ctl self = EngInRun →
  pending_changes self ≠ ∅ →
  mailbox self = msg :: rest →
  msg_type msg = TIRE_CHANGED →
  (∀ p, position msg = Some p → p ∉ pending_changes self) →
  let self' :=
    mkRaceEngineer rest (crew_members self) (pending_changes self)
      (EngRaised KeyError)
  in
  RaceEngineer_run self
    = RunRaise KeyError
        (mkRaceEngineer rest (crew_members self) (pending_changes self)
           EngInRun)
        [Get EngineerQ msg]
  ∧ coordinate_pit_stop self = Some (self', [Get EngineerQ msg])
  ∧ coordinate_pit_stop self' = None.
Proof.
  intros Hctl Hpend Hbox Hty Hpos self'.
  assert (RaceEngineer_run self
          = RunRaise KeyError
              (mkRaceEngineer rest (crew_members self)
                 (pending_changes self) EngInRun)
              [Get EngineerQ msg]) as Hrun.
  { unfold RaceEngineer_run.
    rewrite Hbox, Hty, Hctl. rewrite decide_False by done.
    destruct (position msg) as [p|] eqn:Hp; [|reflexivity].
    rewrite decide_False; [reflexivity|]. by apply Hpos. }
  split; [exact Hrun|]. split; [|reflexivity].
  unfold coordinate_pit_stop. rewrite Hctl, Hrun. reflexivity.
Qed.
End Engineer.

(** C1 fails as stated: from the program state in which the rear left
    change has been acknowledged, a second completion message for the rear
    left wheel is not skipped; the coordinator ends with [KeyError] instead
    of staying in its loop. *)
Lemma duplicate_completion_counterexample :
  (engineer <$>
     (exec [RunEngineer; RunCrew REAR_LEFT; RunCrew REAR_LEFT; RunEngineer]
        main_init))
    = Some (mkRaceEngineer [] (crew_members duplicate_input)
              (pending_changes duplicate_input) EngInRun)
  ∧ (REAR_LEFT ∉ pending_changes duplicate_input)
  ∧ coordinate_pit_stop duplicate_input
    = Some (mkRaceEngineer [] (crew_members duplicate_input)
              (pending_changes duplicate_input) (EngRaised KeyError),
            [Get EngineerQ (completion REAR_LEFT)])
  ∧ coordinate_pit_stop duplicate_input
    ≠ Some (mkRaceEngineer [] (crew_members duplicate_input)
              (pending_changes duplicate_input) EngInRun,
            [Get EngineerQ (completion REAR_LEFT)]).
Proof.
  split; [vm_compute; reflexivity|].
  split; [vm_compute; intros H; inversion H|].
  assert (coordinate_pit_stop duplicate_input
          = Some (mkRaceEngineer [] (crew_members duplicate_input)
                    (pending_changes duplicate_input) (EngRaised KeyError),
                  [Get EngineerQ (completion REAR_LEFT)])) as Hstep.
  { vm_compute. reflexivity. }
  split; [exact Hstep|]. rewrite Hstep. intros [=].
Qed.

Lemma duplicate_completion_raises_KeyError_witness :
  coordinate_pit_stop duplicate_input
  = Some (mkRaceEngineer [] (crew_members duplicate_input)
            (pending_changes duplicate_input) (EngRaised KeyError),
          [Get EngineerQ (completion REAR_LEFT)]).
Proof.
  refine (proj1 (proj2 (duplicate_completion_raises_KeyError duplicate_input
                          (completion REAR_LEFT) [] eq_refl _ eq_refl eq_refl
                          _))).
  - vm_compute. intros H. discriminate H.
  - intros p [= <-]. vm_compute. intros H. inversion H.
Defined.

Lemma engineer_discards_other_messages_witness :
  coordinate_pit_stop
    (mkRaceEngineer [stop_message; completion REAR_RIGHT]
       (crew_members dispatched_engineer)
       (pending_changes dispatched_engineer) EngInRun)
  = Some (mkRaceEngineer [completion REAR_RIGHT]
            (crew_members dispatched_engineer)
            (pending_changes dispatched_engineer) EngInRun,
          [Get EngineerQ stop_message]).
Proof.
  refine (proj1 (engineer_discards_other_messages
                   (mkRaceEngineer [stop_message; completion REAR_RIGHT]
                      (crew_members dispatched_engineer)
                      (pending_changes dispatched_engineer) EngInRun)
                   stop_message [completion REAR_RIGHT] eq_refl _ eq_refl _)).
  - vm_compute. intros H. discriminate H.
  - discriminate.
Defined.

(** ** The aggregation loop along an arrival order *)





(** * The program under every schedule *)

(** ** Small facts about stages *)

Lemma set_stage_eq σ p st : set_stage σ p st p = st.
Proof. unfold set_stage. by rewrite decide_True. Qed.

Lemma set_stage_ne σ p st p' : p' ≠ p → set_stage σ p st p' = σ p'.
Proof. intros Hne. unfold set_stage. by rewrite decide_False. Qed.

Lemma total_weight_set_stage σ p st :
  total_weight (set_stage σ p st) + stage_weight (σ p)
  = total_weight σ + stage_weight st.
Proof.
  destruct p; unfold total_weight, set_stage;
    repeat (case_decide; try congruence); lia.
Qed.

Lemma total_weight_const st :
  total_weight (fun _ => st) = 4 * stage_weight st.
Proof. unfold total_weight. lia. Qed.

Lemma total_weight_ext σ σ' :
  (∀ p, σ p = σ' p) → total_weight σ = total_weight σ'.
Proof. intros H. unfold total_weight. by rewrite !H. Qed.

Lemma crew_set_stage (m : gmap Position PitCrewMember) σ p st :
  (∀ p', m !! p' = Some (stage_member p' (σ p'))) →
  ∀ p', <[p := stage_member p st]> m !! p'
        = Some (stage_member p' (set_stage σ p st p')).
Proof.
  intros Hm p'. destruct (decide (p' = p)) as [->|Hne].
  - by rewrite lookup_insert_eq, set_stage_eq.
  - by rewrite lookup_insert_ne, set_stage_ne.
Qed.

Lemma Position_exists_or_all (P : Position → bool) :
  (∃ p, P p = true) ∨ (∀ p, P p = false).
Proof.
  destruct (P FRONT_LEFT) eqn:H1; [left; eauto|].
  destruct (P FRONT_RIGHT) eqn:H2; [left; eauto|].
  destruct (P REAR_LEFT) eqn:H3; [left; eauto|].
  destruct (P REAR_RIGHT) eqn:H4; [left; eauto|].
  right. intros []; assumption.
Qed.

Lemma crew_keys_all (self : RaceEngineer) :
  (∀ p, is_Some (crew_members self !! p)) → crew_keys self = all_Position.
Proof.
  intros Hall. unfold crew_keys, all_Position.
  rewrite !filter_cons, filter_nil.
  repeat (rewrite decide_True by apply Hall). reflexivity.
Qed.

(** ** The schedule as a sequence of steps *)

Lemma exec_app sched1 sched2 s :
  exec (sched1 ++ sched2) s = exec sched1 s ≫= exec sched2.
Proof.
  revert s. induction sched1 as [|l sched1 IH]; intros s; [reflexivity|].
  cbn. destruct (step l s); [apply IH | reflexivity].
Qed.

Lemma exec_snoc sched l s s' :
  exec (sched ++ [l]) s = Some s' ↔
  ∃ s1, exec sched s = Some s1 ∧ step l s1 = Some s'.
Proof.
  rewrite exec_app. split.
  - destruct (exec sched s) as [s1|]; [|discriminate]. cbn.
    destruct (step l s1) eqn:Hs; [|discriminate]. intros [= <-]. eauto.
  - intros (s1 & -> & Hs). cbn. by rewrite Hs.
Qed.

Lemma fault_free_snoc sched l :
  fault_free (sched ++ [l]) = fault_free sched && is_program_step l.
Proof.
  unfold fault_free. rewrite forallb_app. cbn. by rewrite andb_true_r.
Qed.

(** ** The invariant is kept by every step *)

Lemma deliver_no_put evs self : filter is_put evs = [] → deliver evs self = self.
Proof.
  induction evs as [|ev evs IH]; [reflexivity|].
  destruct ev; cbn; rewrite ?filter_cons; cbn; try exact IH.
  discriminate.
Qed.

Lemma ctl_ok_set_stage c σ p st :
  c ≠ EngReturned →
  stage_shutdown st = stage_shutdown (σ p) →
  ctl_ok c σ → ctl_ok c (set_stage σ p st).
Proof.
  intros Hc Hst. destruct c; cbn; try done; intros H p';
    (destruct (decide (p' = p)) as [->|Hne];
     [rewrite set_stage_eq, Hst | rewrite set_stage_ne by done]; apply H).
Qed.

(** A step that only moves one member to another stage on the same side of
    the acknowledgement. *)
Lemma running_inv_member sched s σ l lab p st evs :
  running_inv sched s σ l →
  ctl (engineer s) ≠ EngReturned →
  σ p ≠ Signalled → st ≠ Signalled →
  stage_pending st = stage_pending (σ p) →
  stage_shutdown st = stage_shutdown (σ p) →
  stage_weight st + 1 = stage_weight (σ p) →
  (st = Failed → is_program_step lab = false) →
  running_inv (sched ++ [lab])
    (mkSystem (set_member p (stage_member p st) (engineer s))
       (trace s ++ evs))
    (set_stage σ p st) l.
Proof.
  intros [] Hctl Hold Hnew Hpend Hshut Hw Hfail.
  split; cbn [engineer trace set_member mailbox crew_members pending_changes
              ctl].
  - by apply crew_set_stage.
  - assumption.
  - assumption.
  - intros p'. destruct (decide (p' = p)) as [->|Hne].
    + rewrite set_stage_eq, ri_signalled0. tauto.
    + by rewrite set_stage_ne.
  - intros p'. destruct (decide (p' = p)) as [->|Hne].
    + by rewrite set_stage_eq, Hpend.
    + by rewrite set_stage_ne.
  - by apply ctl_ok_set_stage.
  - intros p' Hp'. apply elem_of_app. left. apply ri_sent0.
    destruct (decide (p' = p)) as [->|Hne].
    + rewrite set_stage_eq in Hp'. rewrite <- Hpend.
      destruct Hp' as [?|?]; [done | by right].
    + by rewrite set_stage_ne in Hp'.
  - intros p' Hp'. rewrite fault_free_snoc.
    destruct (decide (p' = p)) as [->|Hne].
    + rewrite set_stage_eq in Hp'. rewrite (Hfail Hp').
      apply andb_false_r.
    + rewrite set_stage_ne in Hp' by done.
      by rewrite (ri_failed0 p' Hp').
  - rewrite length_app. cbn [length].
    pose proof (total_weight_set_stage σ p st). lia.
Qed.

(** The member at [p] wakes up and puts its completion message. *)
Lemma running_inv_reply sched s σ l p :
  running_inv sched s σ l →
  ctl (engineer s) ≠ EngReturned →
  σ p = Working →
  running_inv (sched ++ [RunCrew p])
    (commit (set_member p (mkPitCrewMember p [] CrewReceiving) (engineer s))
       [Log (completed_line p); Put EngineerQ (completion p)] s)
    (set_stage σ p Signalled) (l ++ [p]).
Proof.
  intros [] Hctl Hp.
  assert (p ∉ l) as Hnotin.
  { rewrite ri_signalled0, Hp. discriminate. }
  split; cbn [commit deliver put engineer trace set_member mailbox
              crew_members pending_changes ctl].
  - by apply (crew_set_stage _ σ p Signalled).
  - by rewrite ri_mailbox0, fmap_app.
  - apply NoDup_app. split; [assumption|]. split; [|apply NoDup_singleton].
    intros x Hx Hx'. apply list_elem_of_singleton in Hx'. by subst.
  - intros p'. rewrite elem_of_app, list_elem_of_singleton.
    destruct (decide (p' = p)) as [->|Hne].
    + rewrite set_stage_eq. tauto.
    + rewrite set_stage_ne, ri_signalled0 by done. tauto.
  - intros p'. destruct (decide (p' = p)) as [->|Hne].
    + rewrite set_stage_eq, ri_pending0, Hp. done.
    + by rewrite set_stage_ne.
  - apply ctl_ok_set_stage; [done | by rewrite Hp | done].
  - intros p' Hp'. apply elem_of_app.
    destruct (decide (p' = p)) as [->|Hne].
    + right. set_solver.
    + left. rewrite set_stage_ne in Hp' by done. by apply ri_sent0.
  - intros p' Hp'. destruct (decide (p' = p)) as [->|Hne].
    + by rewrite set_stage_eq in Hp'.
    + rewrite set_stage_ne in Hp' by done.
      by rewrite fault_free_snoc, (ri_failed0 p' Hp').
  - rewrite length_app. cbn [length].
    pose proof (total_weight_set_stage σ p Signalled) as Hw.
    rewrite Hp in Hw. cbn in Hw. lia.
Qed.

(** The engineer takes the completion message of [p] from its mailbox. *)
Lemma running_inv_ack sched s σ l p evs :
  running_inv sched s σ (p :: l) →
  ctl (engineer s) = EngInRun →
  running_inv (sched ++ [RunEngineer])
    (mkSystem
       (mkRaceEngineer (completion <$> l) (crew_members (engineer s))
          (pending_changes (engineer s) ∖ {[p]}) EngInRun)
       (trace s ++ evs))
    (set_stage σ p Acked) l.
Proof.
  intros [] Hctl.
  apply NoDup_cons in ri_nodup0 as [Hnotin Hnd].
  assert (σ p = Signalled) as Hp by (apply ri_signalled0; set_solver).
  rewrite Hctl in *.
  split; cbn [engineer trace mailbox crew_members pending_changes ctl].
  - intros p'. rewrite ri_crew0. destruct (decide (p' = p)) as [->|Hne].
    + by rewrite set_stage_eq, Hp.
    + by rewrite set_stage_ne.
  - reflexivity.
  - assumption.
  - intros p'. destruct (decide (p' = p)) as [->|Hne].
    + rewrite set_stage_eq. split; [done | discriminate].
    + rewrite set_stage_ne, <- ri_signalled0 by done. set_solver.
  - intros p'. rewrite elem_of_difference, elem_of_singleton.
    destruct (decide (p' = p)) as [->|Hne].
    + rewrite set_stage_eq. cbn. split; [tauto | discriminate].
    + rewrite set_stage_ne, ri_pending0 by done. tauto.
  - cbn. intros p'. destruct (decide (p' = p)) as [->|Hne].
    + by rewrite set_stage_eq.
    + rewrite set_stage_ne by done. apply ri_ctl0.
  - intros p' Hp'. apply elem_of_app. left. apply ri_sent0.
    destruct (decide (p' = p)) as [->|Hne]; [by left|].
    by rewrite set_stage_ne in Hp'.
  - intros p' Hp'. destruct (decide (p' = p)) as [->|Hne].
    + by rewrite set_stage_eq in Hp'.
    + rewrite set_stage_ne in Hp' by done.
      by rewrite fault_free_snoc, (ri_failed0 p' Hp').
  - rewrite length_app. cbn [length].
    pose proof (total_weight_set_stage σ p Acked) as Hw.
    rewrite Hp in Hw. cbn in Hw. cbn [ctl_weight] in *. lia.
Qed.

Lemma stop_events_all (self : RaceEngineer) :
  (∀ p, is_Some (crew_members self !! p)) →
  stop_events self
  = (fun pos => Put (CrewQ pos) stop_message) <$> all_Position.
Proof. intros Hall. unfold stop_events. by rewrite crew_keys_all. Qed.

(** The engineer leaves [run] and puts the stop messages. *)
Lemma running_inv_shutdown sched s σ l :
  running_inv sched s σ l →
  ctl (engineer s) = EngInRun →
  pending_changes (engineer s) = ∅ →
  running_inv (sched ++ [RunEngineer])
    (commit (set_ctl EngGathering (engineer s)) (stop_events (engineer s)) s)
    (fun _ => Stopping) [].
Proof.
  intros [] Hctl Hpend. rewrite Hctl in *.
  assert (∀ p, σ p = Acked) as Hacked.
  { intros p. specialize (ri_pending0 p). specialize (ri_ctl0 p).
    rewrite Hpend in ri_pending0.
    destruct (σ p); cbn in *; try done; exfalso;
      by apply (not_elem_of_empty (C:=gset Position) p), ri_pending0. }
  assert (l = []) as ->.
  { destruct l as [|p l]; [done|]. exfalso.
    assert (σ p = Signalled) as Hp by (apply ri_signalled0; set_solver).
    by rewrite Hacked in Hp. }
  rewrite stop_events_all by (intros p; rewrite ri_crew0; eauto).
  split; cbn [commit deliver put engineer trace set_ctl mailbox crew_members
              pending_changes ctl fmap list_fmap all_Position].
  - intros p. pose proof (ri_crew0 p) as Hp. rewrite Hacked in Hp.
    destruct p;
      repeat first [ rewrite lookup_alter_eq | rewrite lookup_alter_ne by done ];
      rewrite Hp; reflexivity.
  - assumption.
  - constructor.
  - intros p. split; [intros H; inversion H | discriminate].
  - intros p. rewrite Hpend. cbn. split; [|discriminate].
    intros H. by apply not_elem_of_empty in H.
  - cbn. done.
  - intros p _. apply elem_of_app. left. apply ri_sent0.
    right. by rewrite Hacked.
  - discriminate.
  - rewrite length_app. cbn [length].
    rewrite (total_weight_ext σ (fun _ => Acked)) in ri_rank0 by done.
    rewrite total_weight_const in *. cbn in *. lia.
Qed.

Lemma crew_tasks_stages (self : RaceEngineer) σ :
  (∀ p, crew_members self !! p = Some (stage_member p (σ p))) →
  crew_tasks self = (fun p => crew_ctl (stage_member p (σ p))) <$> all_Position.
Proof.
  intros Hm. unfold crew_tasks, all_Position. cbn. by rewrite !Hm.
Qed.

(** What [asyncio.gather] finds once the stop messages are out. *)
Lemma gather_outcome (self : RaceEngineer) σ :
  (∀ p, crew_members self !! p = Some (stage_member p (σ p))) →
  (∀ p, stage_shutdown (σ p) = true) →
  first_raised (crew_tasks self) = None
  ∧ (forallb is_finished (crew_tasks self) = true ↔ ∀ p, σ p = Stopped).
Proof.
  intros Hm Hshut. rewrite (crew_tasks_stages self σ Hm).
  pose proof (Hshut FRONT_LEFT). pose proof (Hshut FRONT_RIGHT).
  pose proof (Hshut REAR_LEFT). pose proof (Hshut REAR_RIGHT).
  cbn.
  destruct (σ FRONT_LEFT) eqn:E1; try discriminate;
    destruct (σ FRONT_RIGHT) eqn:E2; try discriminate;
    destruct (σ REAR_LEFT) eqn:E3; try discriminate;
    destruct (σ REAR_RIGHT) eqn:E4; try discriminate;
    cbn; (split; [reflexivity|]);
    (split; [intros Hf; try discriminate Hf; intros []; assumption
            | intros Hall;
              try (specialize (Hall FRONT_LEFT); congruence);
              try (specialize (Hall FRONT_RIGHT); congruence);
              try (specialize (Hall REAR_LEFT); congruence);
              try (specialize (Hall REAR_RIGHT); congruence);
              reflexivity]).
Qed.

(** Every task has finished: [coordinate_pit_stop] returns. *)
Lemma running_inv_gather sched s σ l :
  running_inv sched s σ l →
  ctl (engineer s) = EngGathering →
  (∀ p, σ p = Stopped) →
  running_inv (sched ++ [RunEngineer])
    (commit (set_ctl EngReturned (engineer s)) [] s) σ l.
Proof.
  intros [] Hctl Hall. rewrite Hctl in *.
  split; cbn [commit deliver engineer trace set_ctl mailbox crew_members
              pending_changes ctl]; try assumption.
  - intros p Hp. rewrite app_nil_r. by apply ri_sent0.
  - intros p Hp. by rewrite Hall in Hp.
  - rewrite length_app. cbn in *. lia.
Qed.

Lemma step_main_init l s :
  step l main_init = Some s → l = RunEngineer ∧ s = dispatched_system.
Proof.
  destruct l as [|p|p]; [| destruct p; discriminate..].
  intros [= <-]. split; reflexivity.
Qed.

(** The first step of the coordinator. *)
Lemma running_inv_dispatch :
  running_inv [RunEngineer] dispatched_system (fun _ => Queued) [].
Proof.
  split.
  - intros []; reflexivity.
  - reflexivity.
  - constructor.
  - intros p. split; [intros H; inversion H | discriminate].
  - intros p. split; [reflexivity|]. intros _.
    change (pending_changes (engineer dispatched_system))
      with (list_to_set (C:=gset Position) all_Position).
    apply elem_of_list_to_set. destruct p; set_solver.
  - change (∀ p : Position, stage_shutdown Queued = false). reflexivity.
  - intros p [?|?]; discriminate.
  - discriminate.
  - reflexivity.
Qed.

Lemma loop_running_not_returned (self : RaceEngineer) :
  loop_running self = true → ctl self ≠ EngReturned.
Proof. unfold loop_running. intros H Hc. by rewrite Hc in H. Qed.

(** Every step keeps the invariant. *)
Lemma inv_step sched s l s' :
  inv sched s → step l s = Some s' → inv (sched ++ [l]) s'.
Proof.
  intros [[-> ->] | (σ & lst & Hinv)] Hstep; right.
  { apply step_main_init in Hstep as [-> ->].
    exists (fun _ => Queued), []. apply running_inv_dispatch. }
  destruct l as [|p|p]; unfold step in Hstep.
  - (* the coordinator *)
    unfold coordinate_pit_stop in Hstep.
    pose proof (ri_ctl _ _ _ _ Hinv) as Hok.
    destruct (ctl (engineer s)) eqn:Hctl; cbn in Hok; try done.
    + unfold RaceEngineer_run in Hstep.
      destruct (decide (pending_changes (engineer s) = ∅)) as [Hpend|Hpend].
      * injection Hstep as <-. exists (fun _ => Stopping), [].
        exact (running_inv_shutdown sched s σ lst Hinv Hctl Hpend).
      * rewrite (ri_mailbox _ _ _ _ Hinv) in Hstep.
        destruct lst as [|p lst]; [discriminate|].
        cbn [fmap list_fmap completion Message2 msg_type position] in Hstep.
        assert (p ∈ pending_changes (engineer s)) as Hin.
        { apply (ri_pending _ _ _ _ Hinv).
          assert (σ p = Signalled) as ->
            by (apply (ri_signalled _ _ _ _ Hinv); set_solver).
          reflexivity. }
        rewrite decide_True in Hstep by exact Hin. rewrite Hctl in Hstep.
        exists (set_stage σ p Acked), lst.
        destruct (decide (pending_changes (engineer s) ∖ {[p]} = ∅));
          injection Hstep as <-;
          exact (running_inv_ack sched s σ lst p _ Hinv Hctl).
    + pose proof (gather_outcome (engineer s) σ (ri_crew _ _ _ _ Hinv) Hok)
        as [Hraised Hfin].
      rewrite Hraised in Hstep.
      destruct (forallb is_finished (crew_tasks (engineer s))) eqn:Hall;
        [|discriminate].
      injection Hstep as <-. exists σ, lst.
      apply (running_inv_gather sched s σ lst Hinv Hctl). by apply Hfin.
  - (* a crew member *)
    destruct (loop_running (engineer s)) eqn:Hrun; [|discriminate].
    apply loop_running_not_returned in Hrun.
    rewrite (ri_crew _ _ _ _ Hinv) in Hstep.
    destruct (σ p) eqn:Hp; cbn in Hstep; try discriminate;
      injection Hstep as <-.
    + exists (set_stage σ p Working), lst.
      refine (running_inv_member sched s σ lst (RunCrew p) p Working _
                Hinv Hrun _ _ _ _ _ _);
        rewrite ?Hp; done.
    + exists (set_stage σ p Signalled), (lst ++ [p]).
      by apply running_inv_reply.
    + exists (set_stage σ p Stopped), lst.
      refine (running_inv_member sched s σ lst (RunCrew p) p Stopped _
                Hinv Hrun _ _ _ _ _ _);
        rewrite ?Hp; done.
  - (* the work of a member fails *)
    destruct (loop_running (engineer s)) eqn:Hrun; [|discriminate].
    apply loop_running_not_returned in Hrun.
    rewrite (ri_crew _ _ _ _ Hinv) in Hstep.
    destruct (σ p) eqn:Hp; cbn in Hstep; try discriminate;
      injection Hstep as <-.
    exists (set_stage σ p Failed), lst.
    refine (running_inv_member sched s σ lst (WorkFails p) p Failed _
              Hinv Hrun _ _ _ _ _ _);
      rewrite ?Hp; done.
Qed.

(** Every state reached from [main_init] satisfies the invariant. *)
Lemma inv_exec sched s : exec sched main_init = Some s → inv sched s.
Proof.
  revert s. induction sched as [|l sched IH] using rev_ind; intros s.
  - intros [= <-]. by left.
  - intros (s1 & Hexec & Hstep)%exec_snoc. eauto using inv_step.
Qed.

(** ** The events of a step *)

Lemma deliver_ctl evs self : ctl (deliver evs self) = ctl self.
Proof.
  revert self. induction evs as [|ev evs IH]; intros self; [reflexivity|].
  destruct ev as [| |q m|]; cbn [deliver]; rewrite ?IH; try reflexivity.
  by destruct q.
Qed.

Lemma running_inv_all_acked sched s σ lst :
  running_inv sched s σ lst →
  ctl (engineer s) = EngInRun →
  pending_changes (engineer s) = ∅ →
  ∀ p, σ p = Acked.
Proof.
  intros [] Hctl Hpend p. rewrite Hctl in *.
  specialize (ri_pending0 p). specialize (ri_ctl0 p).
  rewrite Hpend in ri_pending0.
  destruct (σ p); cbn in *; try done; exfalso;
    by apply (not_elem_of_empty (C:=gset Position) p), ri_pending0.
Qed.

Lemma step_protocol_events sched s σ lst l s' :
  running_inv sched s σ lst →
  step l s = Some s' →
  ∃ evs, trace s' = trace s ++ evs ∧ protocol_events s s' σ l evs.
Proof.
  intros Hinv Hstep.
  destruct l as [|p|p]; unfold step in Hstep.
  - unfold coordinate_pit_stop in Hstep.
    pose proof (ri_ctl _ _ _ _ Hinv) as Hok.
    destruct (ctl (engineer s)) eqn:Hctl; cbn in Hok; try done.
    + unfold RaceEngineer_run in Hstep.
      destruct (decide (pending_changes (engineer s) = ∅)) as [Hpend|Hpend].
      * injection Hstep as <-. exists stop_puts. split.
        -- cbn [commit trace]. f_equal. apply stop_events_all.
           intros p. rewrite (ri_crew _ _ _ _ Hinv). eauto.
        -- apply pe_shutdown; eauto using running_inv_all_acked.
           cbn [commit engineer]. by rewrite deliver_ctl.
      * rewrite (ri_mailbox _ _ _ _ Hinv) in Hstep.
        destruct lst as [|p lst]; [discriminate|].
        cbn [fmap list_fmap completion Message2 msg_type position] in Hstep.
        assert (σ p = Signalled) as Hp
          by (apply (ri_signalled _ _ _ _ Hinv); set_solver).
        assert (p ∈ pending_changes (engineer s)) as Hin.
        { apply (ri_pending _ _ _ _ Hinv). by rewrite Hp. }
        rewrite decide_True in Hstep by exact Hin.
        destruct (decide (pending_changes (engineer s) ∖ {[p]} = ∅));
          injection Hstep as <-; eexists; (split; [reflexivity|]);
          apply (pe_ack _ _ σ p); auto.
    + destruct (first_raised (crew_tasks (engineer s))) eqn:Hraised.
      { pose proof (gather_outcome (engineer s) σ (ri_crew _ _ _ _ Hinv) Hok)
          as [Hnone _]. congruence. }
      destruct (forallb is_finished (crew_tasks (engineer s)));
        try discriminate; injection Hstep as <-;
        exists []; (split; [reflexivity | by constructor]).
  - destruct (loop_running (engineer s)) eqn:Hrun; [|discriminate].
    rewrite (ri_crew _ _ _ _ Hinv) in Hstep.
    destruct (σ p) eqn:Hp; cbn in Hstep; try discriminate;
      injection Hstep as <-; eexists; (split; [reflexivity|]);
      by constructor.
  - destruct (loop_running (engineer s)) eqn:Hrun; [|discriminate].
    rewrite (ri_crew _ _ _ _ Hinv) in Hstep.
    destruct (σ p) eqn:Hp; cbn in Hstep; try discriminate;
      injection Hstep as <-; exists []; (split; [reflexivity | by constructor]).
Qed.

(** Induction over the schedules from [main_init], with the stages at
    hand. *)
Lemma exec_protocol_ind (P : list Label → System → Prop) :
  P [] main_init →
  P [RunEngineer] dispatched_system →
  (∀ sched s σ lst l s' evs,
     exec sched main_init = Some s →
     running_inv sched s σ lst → P sched s →
     step l s = Some s' →
     trace s' = trace s ++ evs → protocol_events s s' σ l evs →
     P (sched ++ [l]) s') →
  ∀ sched s, exec sched main_init = Some s → P sched s.
Proof.
  intros Hinit Hdisp Hstep sched.
  induction sched as [|l sched IH] using rev_ind; intros s.
  - by intros [= <-].
  - intros (s1 & Hexec & Hs)%exec_snoc.
    destruct (inv_exec _ _ Hexec) as [[-> ->] | (σ & lst & Hinv)].
    + apply step_main_init in Hs as [-> ->]. exact Hdisp.
    + destruct (step_protocol_events _ _ _ _ _ _ Hinv Hs) as (evs & Htr & Hpe).
      eapply Hstep; eauto.
Qed.

(** ** What the trace can contain *)

Lemma lookup_app_new {A} (tr evs : list A) i x :
  (tr ++ evs) !! i = Some x →
  tr !! i = Some x ∨ (length tr ≤ i ∧ x ∈ evs).
Proof.
  intros [H | [Hlen H]]%lookup_app_Some; [by left|].
  right. split; [done|]. by apply list_elem_of_lookup_2 in H.
Qed.

Ltac events_in H :=
  repeat (apply elem_of_cons in H as [->|H]); try (by apply elem_of_nil in H).

Lemma protocol_events_no_work_put s s' σ l evs :
  protocol_events s s' σ l evs → filter is_work_put evs = [].
Proof. intros []; try reflexivity. by destruct H0 as [-> | ->]. Qed.

Lemma protocol_events_in_run s s' σ l evs :
  protocol_events s s' σ l evs →
  ctl (engineer s') = EngInRun →
  ctl (engineer s) = EngInRun ∧ filter is_stop_put evs = [].
Proof.
  intros [] Hctl; try congruence; try (split; [congruence | reflexivity]).
  split; [done|]. by destruct H0 as [-> | ->].
Qed.

Lemma protocol_events_stop_for sched s s' σ lst l evs ev p :
  running_inv sched s σ lst →
  protocol_events s s' σ l evs →
  ev ∈ evs → is_stop_for p ev = true →
  Put EngineerQ (completion p) ∈ trace s.
Proof.
  intros Hinv Hpe Hin Hstop. apply (ri_sent _ _ _ _ Hinv). right.
  destruct Hpe as [? ? Hacked ?|p0 evs ? [-> | ->] ? ?| |p0 ? ?|p0 ? ?
                  |p0 Hp0 ?|p0 ?].
  - by rewrite Hacked.
  - events_in Hin; discriminate.
  - events_in Hin; discriminate.
  - by apply elem_of_nil in Hin.
  - events_in Hin; cbn in Hstop; try discriminate.
    apply bool_decide_eq_true in Hstop as [_ [=]].
  - events_in Hin; discriminate.
  - events_in Hin; cbn in Hstop; try discriminate.
    apply bool_decide_eq_true in Hstop as [-> _]. by rewrite Hp0.
  - by apply elem_of_nil in Hin.
Qed.

Lemma running_inv_started sched s σ lst :
  running_inv sched s σ lst → sched ≠ [] ∧ ctl (engineer s) ≠ EngNotStarted.
Proof.
  intros Hinv. pose proof (ri_ctl _ _ _ _ Hinv) as Hok. split.
  - intros ->. pose proof (ri_rank _ _ _ _ Hinv) as Hrank.
    cbn [length] in Hrank. unfold full_run_length, total_weight in Hrank.
    destruct (ctl (engineer s)); cbn in Hok, Hrank; try done.
    + pose proof (Hok FRONT_LEFT). pose proof (Hok FRONT_RIGHT).
      pose proof (Hok REAR_LEFT). pose proof (Hok REAR_RIGHT).
      destruct (σ FRONT_LEFT), (σ FRONT_RIGHT), (σ REAR_LEFT),
        (σ REAR_RIGHT); cbn in *; try discriminate; lia.
    + pose proof (Hok FRONT_LEFT). pose proof (Hok FRONT_RIGHT).
      pose proof (Hok REAR_LEFT). pose proof (Hok REAR_RIGHT).
      destruct (σ FRONT_LEFT), (σ FRONT_RIGHT), (σ REAR_LEFT),
        (σ REAR_RIGHT); cbn in *; try discriminate; lia.
    + rewrite !Hok in Hrank. cbn in Hrank. lia.
  - intros Hc. by rewrite Hc in Hok.
Qed.

(** The trace is empty before the coordinator starts; afterwards it begins
    with the events of the dispatch, and no work message is put later. *)
Lemma trace_dispatch_prefix sched s :
  exec sched main_init = Some s →
  (sched = [] ∧ s = main_init)
  ∨ (sched ≠ [] ∧ ctl (engineer s) ≠ EngNotStarted
     ∧ ∃ rest, trace s = Log entering_line :: work_puts ++ rest
               ∧ filter is_work_put rest = []).
Proof.
  revert sched s. apply exec_protocol_ind.
  - by left.
  - right. split; [done|]. split; [done|]. exists []. split; reflexivity.
  - intros sched s σ lst l s' evs Hexec Hinv IH Hstep Htr Hpe. right.
    destruct IH as [[-> ->] | (_ & _ & rest & Hrest & Hfilter)].
    { by destruct (running_inv_started _ _ _ _ Hinv) as [? _]. }
    split; [by destruct sched|]. split.
    + destruct (running_inv_started _ _ _ _ Hinv) as [_ Hc].
      destruct Hpe; congruence.
    + exists (rest ++ evs). split.
      * rewrite Htr, Hrest. by rewrite <- app_comm_cons, <- app_assoc.
      * rewrite filter_app, Hfilter.
        by rewrite (protocol_events_no_work_put _ _ _ _ _ Hpe).
Qed.

(** While the coordinator is inside [run], no stop message has been put. *)
Lemma no_stop_put_in_run sched s :
  exec sched main_init = Some s →
  ctl (engineer s) = EngInRun → filter is_stop_put (trace s) = [].
Proof.
  revert sched s.
  apply (exec_protocol_ind
           (fun _ s => ctl (engineer s) = EngInRun →
                       filter is_stop_put (trace s) = [])).
  - reflexivity.
  - reflexivity.
  - intros sched s σ lst l s' evs Hexec Hinv IH Hstep Htr Hpe Hctl.
    destruct (protocol_events_in_run _ _ _ _ _ Hpe Hctl) as [Hctl0 Hevs].
    by rewrite Htr, filter_app, (IH Hctl0), Hevs.
Qed.

(** A stop message for [p] is in the trace only after the completion
    message of [p]. *)
Lemma stop_after_completion sched s :
  exec sched main_init = Some s →
  ∀ i ev p,
    trace s !! i = Some ev → is_stop_for p ev = true →
    ∃ j, j < i ∧ trace s !! j = Some (Put EngineerQ (completion p)).
Proof.
  revert sched s.
  apply (exec_protocol_ind
           (fun _ s => ∀ i ev p,
              trace s !! i = Some ev → is_stop_for p ev = true →
              ∃ j, j < i ∧ trace s !! j = Some (Put EngineerQ (completion p)))).
  - intros i ev p Hi. discriminate Hi.
  - intros i ev p Hi Hstop.
    apply list_elem_of_lookup_2 in Hi. cbn in Hi.
    events_in Hi; cbn in Hstop; try discriminate;
      apply bool_decide_eq_true in Hstop as [_ [=]].
  - intros sched s σ lst l s' evs Hexec Hinv IH Hstep Htr Hpe i ev p Hi Hstop.
    rewrite Htr in Hi |- *.
    apply lookup_app_new in Hi as [Hi | [Hlen Hin]].
    + destruct (IH i ev p Hi Hstop) as (j & Hj & Hlook).
      exists j. split; [done|]. by apply lookup_app_l_Some.
    + pose proof (protocol_events_stop_for _ _ _ _ _ _ _ _ _ Hinv Hpe Hin Hstop)
        as Hsent.
      apply list_elem_of_lookup_1 in Hsent as [j Hj].
      exists j. split.
      * apply lookup_lt_Some in Hj. lia.
      * by apply lookup_app_l_Some.
Qed.

(** ** Shutdown, return and progress *)

(** While a position is pending, no stop message has been put. *)
Lemma no_stop_put_while_pending sched s :
  exec sched main_init = Some s →
  pending_changes (engineer s) ≠ ∅ → filter is_stop_put (trace s) = [].
Proof.
  intros Hexec Hpend.
  destruct (inv_exec _ _ Hexec) as [[-> ->] | (σ & lst & Hinv)];
    [reflexivity|].
  pose proof (ri_ctl _ _ _ _ Hinv) as Hok.
  apply set_choose_L in Hpend as [p Hp].
  apply (ri_pending _ _ _ _ Hinv) in Hp.
  destruct (ctl (engineer s)) eqn:Hctl; cbn in Hok; try done.
  - by apply (no_stop_put_in_run sched s).
  - specialize (Hok p). destruct (σ p); discriminate.
  - rewrite Hok in Hp. discriminate.
Qed.

(** Once [coordinate_pit_stop] has returned, every member has left its
    loop, with an empty mailbox, and nothing is pending. *)
Lemma returned_all_finished sched s :
  exec sched main_init = Some s →
  ctl (engineer s) = EngReturned →
  (∀ p, crew_members (engineer s) !! p
        = Some (mkPitCrewMember p [] CrewFinished))
  ∧ pending_changes (engineer s) = ∅
  ∧ mailbox (engineer s) = [].
Proof.
  intros Hexec Hctl.
  destruct (inv_exec _ _ Hexec) as [[-> ->] | (σ & lst & Hinv)];
    [discriminate|].
  pose proof (ri_ctl _ _ _ _ Hinv) as Hok. rewrite Hctl in Hok. cbn in Hok.
  split; [|split].
  - intros p. by rewrite (ri_crew _ _ _ _ Hinv), Hok.
  - apply set_eq. intros p. rewrite (ri_pending _ _ _ _ Hinv), Hok. cbn.
    split; [discriminate | intros H; by apply not_elem_of_empty in H].
  - rewrite (ri_mailbox _ _ _ _ Hinv). destruct lst as [|p lst]; [done|].
    assert (σ p = Signalled) as Hp
      by (apply (ri_signalled _ _ _ _ Hinv); set_solver).
    rewrite Hok in Hp. discriminate.
Qed.

(** When nothing fails, some actor can take a step until
    [coordinate_pit_stop] has returned. *)
Lemma program_progress sched s σ lst :
  running_inv sched s σ lst →
  fault_free sched = true →
  ctl (engineer s) ≠ EngReturned →
  ∃ l s', is_program_step l = true ∧ step l s = Some s'.
Proof.
  intros Hinv Hff Hnot.
  assert (∀ p, σ p ≠ Failed) as Hnofail.
  { intros p Hp. apply (ri_failed _ _ _ _ Hinv) in Hp. congruence. }
  pose proof (ri_ctl _ _ _ _ Hinv) as Hok.
  destruct (ctl (engineer s)) eqn:Hctl; cbn in Hok; try done.
  - destruct (Position_exists_or_all
                (fun p => bool_decide (σ p = Queued ∨ σ p = Working)))
      as [[p Hp] | Hnone].
    + apply bool_decide_eq_true in Hp.
      exists (RunCrew p). unfold step, loop_running.
      rewrite Hctl, (ri_crew _ _ _ _ Hinv).
      destruct Hp as [-> | ->]; cbn; eauto.
    + exists RunEngineer. unfold step, coordinate_pit_stop, RaceEngineer_run.
      rewrite Hctl.
      destruct (decide (pending_changes (engineer s) = ∅)) as [|Hpend];
        [eauto|].
      apply set_choose_L in Hpend as [p Hp].
      assert (σ p = Signalled) as Hsig.
      { pose proof Hp as Hp'. apply (ri_pending _ _ _ _ Hinv) in Hp'.
        specialize (Hnone p). apply bool_decide_eq_false in Hnone.
        specialize (Hnofail p).
        destruct (σ p); try done; exfalso; apply Hnone; auto. }
      apply (ri_signalled _ _ _ _ Hinv) in Hsig.
      rewrite (ri_mailbox _ _ _ _ Hinv).
      destruct lst as [|q lst]; [by apply elem_of_nil in Hsig|].
      cbn [fmap list_fmap completion Message2 msg_type position].
      assert (q ∈ pending_changes (engineer s)) as Hq.
      { apply (ri_pending _ _ _ _ Hinv).
        assert (σ q = Signalled) as ->
          by (apply (ri_signalled _ _ _ _ Hinv); set_solver).
        reflexivity. }
      rewrite decide_True by exact Hq.
      destruct (decide (pending_changes (engineer s) ∖ {[q]} = ∅)); eauto.
  - destruct (Position_exists_or_all (fun p => bool_decide (σ p = Stopping)))
      as [[p Hp] | Hnone].
    + apply bool_decide_eq_true in Hp.
      exists (RunCrew p). unfold step, loop_running.
      rewrite Hctl, (ri_crew _ _ _ _ Hinv), Hp. cbn. eauto.
    + exists RunEngineer. unfold step, coordinate_pit_stop. rewrite Hctl.
      destruct (gather_outcome (engineer s) σ (ri_crew _ _ _ _ Hinv) Hok)
        as [-> Hfin].
      assert (forallb is_finished (crew_tasks (engineer s)) = true) as ->.
      { apply Hfin. intros p. specialize (Hok p). specialize (Hnone p).
        apply bool_decide_eq_false in Hnone.
        destruct (σ p); try done. }
      eauto.
Qed.

(** When nothing fails, every schedule can be carried on until
    [coordinate_pit_stop] returns; [n] is what is left of the measure. *)
Lemma program_terminates n sched s :
  inv sched s →
  fault_free sched = true →
  length sched + n = full_run_length →
  ∃ sched' s',
    fault_free sched' = true ∧ exec sched' s = Some s'
    ∧ ctl (engineer s') = EngReturned ∧ length sched' = n.
Proof.
  revert sched s. induction n as [|n IH]; intros sched s Hinv Hff Hlen.
  - destruct Hinv as [[-> ->] | (σ & lst & Hinv)]; [discriminate Hlen|].
    exists [], s. split; [done|]. split; [done|]. split; [|done].
    pose proof (ri_ctl _ _ _ _ Hinv) as Hok.
    pose proof (ri_rank _ _ _ _ Hinv) as Hrank.
    destruct (ctl (engineer s)); cbn in Hok, Hrank; try done; exfalso; lia.
  - assert (∃ l s1, is_program_step l = true ∧ step l s = Some s1)
      as (l & s1 & Hl & Hstep).
    { destruct Hinv as [[-> ->] | (σ & lst & Hinv)].
      - exists RunEngineer, dispatched_system. done.
      - apply (program_progress sched s σ lst Hinv Hff).
        intros Hret. pose proof (ri_rank _ _ _ _ Hinv) as Hrank.
        pose proof (ri_ctl _ _ _ _ Hinv) as Hok.
        rewrite Hret in Hrank, Hok. cbn in Hok, Hrank.
        rewrite (total_weight_ext σ (fun _ => Stopped)) in Hrank by done.
        rewrite total_weight_const in Hrank. cbn in Hrank. lia. }
    destruct (IH (sched ++ [l]) s1) as (sched' & s' & Hff' & Hexec & Hret & Hn).
    + by apply (inv_step sched s).
    + by rewrite fault_free_snoc, Hff, Hl.
    + rewrite length_app. cbn. lia.
    + exists (l :: sched'), s'. split; [|split; [|split]].
      * cbn. by rewrite Hl.
      * cbn. by rewrite Hstep.
      * done.
      * cbn. by rewrite Hn.
Qed.

(** * The claims about the whole program *)

Example exec_full_schedule : exec full_schedule main_init = Some full_system.
Proof. vm_compute. reflexivity. Qed.

Example exec_stalled_schedule :
  exec stalled_schedule main_init = Some stalled_system.
Proof. vm_compute. reflexivity. Qed.

(** Nothing can run any more in the stalled state, and the front left
    position is all that is pending. *)
Example stalled_system_is_stuck :
  (∀ l, step l stalled_system = None)
  ∧ pending_changes (engineer stalled_system) = {[FRONT_LEFT]}
  ∧ ctl (engineer stalled_system) = EngInRun.
Proof.
  split; [|split].
  - intros [|[]|[]]; vm_compute; reflexivity.
  - vm_compute. reflexivity.
  - vm_compute. reflexivity.
Qed.

(** C4: the first step of the coordinator puts, for each position in turn,
    one work message in that member's mailbox, carrying the position and
    naming the engineer's mailbox as reply queue, and leaves the engineer
    suspended in its first [get()].  In every later state the trace begins
    with these events and no other work message has been put since. *)
Theorem dispatch_is_a_scatter sched s :
  exec sched main_init = Some s →
  sched ≠ [] →
  step RunEngineer main_init = Some dispatched_system
  ∧ trace dispatched_system = Log entering_line :: work_puts
  ∧ work_puts
    = [Put (CrewQ FRONT_LEFT)
         (mkMessage CHANGE_TIRE (Some FRONT_LEFT) (Some EngineerQ));
       Put (CrewQ FRONT_RIGHT)
         (mkMessage CHANGE_TIRE (Some FRONT_RIGHT) (Some EngineerQ));
       Put (CrewQ REAR_LEFT)
         (mkMessage CHANGE_TIRE (Some REAR_LEFT) (Some EngineerQ));
       Put (CrewQ REAR_RIGHT)
         (mkMessage CHANGE_TIRE (Some REAR_RIGHT) (Some EngineerQ))]
  ∧ RaceEngineer_run (engineer dispatched_system) = RunAwait
  ∧ (∀ p, crew_members (engineer dispatched_system) !! p
          = Some (mkPitCrewMember p [change_tire_message p] CrewReceiving))
  ∧ ∃ rest,
      trace s = Log entering_line :: work_puts ++ rest
      ∧ filter is_work_put rest = []
      ∧ filter is_work_put (trace s) = work_puts
      ∧ filter is_engineer_get (trace s) = filter is_engineer_get rest.
Proof.
  intros Hexec Hne.
  split; [reflexivity|]. split; [reflexivity|]. split; [reflexivity|].
  split; [reflexivity|]. split; [intros []; reflexivity|].
  destruct (trace_dispatch_prefix sched s Hexec)
    as [[-> _] | (_ & _ & rest & Hrest & Hfilter)]; [done|].
  exists rest. split; [done|]. split; [done|]. rewrite Hrest. split.
  - rewrite filter_cons, filter_app, Hfilter, app_nil_r. reflexivity.
  - rewrite filter_cons, filter_app. reflexivity.
Qed.

Lemma dispatch_is_a_scatter_witness :
  ∃ rest,
    trace full_system = Log entering_line :: work_puts ++ rest
    ∧ filter is_work_put rest = []
    ∧ filter is_work_put (trace full_system) = work_puts
    ∧ filter is_engineer_get (trace full_system)
      = filter is_engineer_get rest.
Proof.
  refine (proj2 (proj2 (proj2 (proj2 (proj2
            (dispatch_is_a_scatter full_schedule full_system _ _)))))).
  - vm_compute. reflexivity.
  - discriminate.
Defined.

(** C3: in every run, failures included, a stop message for a position is
    put in, and taken from, that member's mailbox only after the member's
    completion message was put in the engineer's mailbox; no stop message
    has been put while a position is pending; and the only step that puts
    stop messages is the step of the coordinator in which [run] returns,
    the pending set being empty. *)
Theorem stop_only_after_completion sched s :
  exec sched main_init = Some s →
  (∀ i p m,
     trace s !! i = Some (Put (CrewQ p) m)
     ∨ trace s !! i = Some (Get (CrewQ p) m) →
     msg_type m = STOP →
     ∃ j, j < i ∧ trace s !! j = Some (Put EngineerQ (completion p)))
  ∧ (pending_changes (engineer s) ≠ ∅ → filter is_stop_put (trace s) = [])
  ∧ (∀ l s',
       step l s = Some s' →
       filter is_stop_put (trace s') ≠ filter is_stop_put (trace s) →
       l = RunEngineer
       ∧ ctl (engineer s) = EngInRun
       ∧ RaceEngineer_run (engineer s) = RunReturn
       ∧ pending_changes (engineer s) = ∅).
Proof.
  intros Hexec. split; [|split].
  - intros i p m Hi Hstop.
    destruct Hi as [Hi | Hi];
      apply (stop_after_completion sched s Hexec i _ p Hi);
      cbn; apply bool_decide_eq_true; done.
  - exact (no_stop_put_while_pending sched s Hexec).
  - intros l s' Hstep Hnew.
    destruct (inv_exec _ _ Hexec) as [[-> ->] | (σ & lst & Hinv)].
    { apply step_main_init in Hstep as [-> ->]. by destruct Hnew. }
    destruct (step_protocol_events _ _ _ _ _ _ Hinv Hstep)
      as (evs & Htr & Hpe).
    rewrite Htr, filter_app in Hnew.
    destruct Hpe as [Hctl Hpend _ _|p0 evs _ [-> | ->] _ _| | | | |];
      try (exfalso; apply Hnew; cbn; by rewrite app_nil_r).
    split; [done|]. split; [done|]. split; [|done].
    by apply RaceEngineer_run_return.
Qed.

Lemma stop_only_after_completion_witness :
  ∃ j, j < 32
       ∧ trace full_system !! j = Some (Put EngineerQ (completion REAR_LEFT)).
Proof.
  refine (proj1 (stop_only_after_completion full_schedule full_system _)
            32 REAR_LEFT stop_message _ eq_refl).
  - vm_compute. reflexivity.
  - left. vm_compute. reflexivity.
Defined.

(** C7: in every run, failures included, as long as no completion message
    for [p] has been put in the engineer's mailbox, [p] is pending, [run]
    has not returned and does not return, and no stop message has been
    put. *)
Theorem missing_completion_stalls_engineer sched s p :
  exec sched main_init = Some s →
  filter (is_completion_put p) (trace s) = [] →
  p ∈ pending_changes (engineer s)
  ∧ pending_changes (engineer s) ≠ ∅
  ∧ RaceEngineer_run (engineer s) ≠ RunReturn
  ∧ (ctl (engineer s) = EngNotStarted ∨ ctl (engineer s) = EngInRun)
  ∧ filter is_stop_put (trace s) = [].
Proof.
  intros Hexec Hnone.
  assert (p ∈ pending_changes (engineer s)
          ∧ (ctl (engineer s) = EngNotStarted ∨ ctl (engineer s) = EngInRun))
    as [Hp Hctl].
  { destruct (inv_exec _ _ Hexec) as [[-> ->] | (σ & lst & Hinv)].
    - split; [|by left].
      change (pending_changes (engineer main_init))
        with (list_to_set (C:=gset Position) all_Position).
      apply elem_of_list_to_set. destruct p; set_solver.
    - assert (stage_pending (σ p) = true) as Hpend.
      { destruct (stage_pending (σ p)) eqn:Hst; [done|]. exfalso.
        assert (Put EngineerQ (completion p) ∈ trace s) as Hin
          by (apply (ri_sent _ _ _ _ Hinv); by right).
        assert (Put EngineerQ (completion p)
                  ∈ filter (is_completion_put p) (trace s)) as Hin'.
        { apply list_elem_of_filter. split; [|done].
          cbn. apply Is_true_true, bool_decide_eq_true. done. }
        rewrite Hnone in Hin'. by apply elem_of_nil in Hin'. }
      split; [by apply (ri_pending _ _ _ _ Hinv)|]. right.
      pose proof (ri_ctl _ _ _ _ Hinv) as Hok.
      destruct (ctl (engineer s)); cbn in Hok; try done.
      + specialize (Hok p). destruct (σ p); discriminate.
      + rewrite Hok in Hpend. discriminate. }
  assert (pending_changes (engineer s) ≠ ∅) as Hne by set_solver.
  split; [done|]. split; [done|]. split; [|split; [done|]].
  - intros Hret. by apply RaceEngineer_run_return in Hret.
  - by apply (no_stop_put_while_pending sched s).
Qed.

Lemma missing_completion_stalls_engineer_witness :
  FRONT_LEFT ∈ pending_changes (engineer stalled_system)
  ∧ pending_changes (engineer stalled_system) ≠ ∅
  ∧ RaceEngineer_run (engineer stalled_system) ≠ RunReturn
  ∧ (ctl (engineer stalled_system) = EngNotStarted
     ∨ ctl (engineer stalled_system) = EngInRun)
  ∧ filter is_stop_put (trace stalled_system) = [].
Proof.
  apply (missing_completion_stalls_engineer stalled_schedule stalled_system
           FRONT_LEFT).
  - vm_compute. reflexivity.
  - vm_compute. reflexivity.
Defined.

(** C2 fails as stated: [coordinate_pit_stop] takes no worker count, the
    pool is the four positions.  For a worker count of one the pending set
    starts with four positions and four work messages are dispatched. *)
Lemma worker_count_counterexample :
  let worker_count := 1 in
  1 ≤ worker_count
  ∧ size (pending_changes RaceEngineer_init) ≠ worker_count
  ∧ length (filter is_work_put (dispatch_events RaceEngineer_init))
    ≠ worker_count.
Proof.
  cbv zeta. split; [lia|]. split.
  - vm_compute. discriminate.
  - vm_compute. discriminate.
Qed.

(** C2, as the program has it: the pool is fixed to the four positions.
    In every run in which nothing fails, the pending set starts with the
    four positions, exactly one work message per position is dispatched,
    the pending set is empty as soon as a stop message has been put,
    [coordinate_pit_stop] has returned only if every member has left its
    loop with an empty mailbox, and the run can always be carried on until
    [coordinate_pit_stop] returns. *)
Theorem coordinate_pit_stop_full_cycle sched s :
  fault_free sched = true →
  exec sched main_init = Some s →
  pending_changes RaceEngineer_init = list_to_set all_Position
  ∧ size (pending_changes RaceEngineer_init) = 4
  ∧ (sched ≠ [] → filter is_work_put (trace s) = work_puts)
  ∧ (filter is_stop_put (trace s) ≠ [] → pending_changes (engineer s) = ∅)
  ∧ (ctl (engineer s) = EngReturned →
     ∀ p, crew_members (engineer s) !! p
          = Some (mkPitCrewMember p [] CrewFinished))
  ∧ ∃ sched' s',
      fault_free sched' = true
      ∧ exec sched' s = Some s'
      ∧ ctl (engineer s') = EngReturned.
Proof.
  intros Hff Hexec.
  split; [reflexivity|]. split; [vm_compute; reflexivity|].
  split; [|split; [|split]].
  - intros Hne.
    destruct (trace_dispatch_prefix sched s Hexec)
      as [[-> _] | (_ & _ & rest & Hrest & Hfilter)]; [done|].
    rewrite Hrest, filter_cons, filter_app, Hfilter, app_nil_r. reflexivity.
  - intros Hstop.
    destruct (decide (pending_changes (engineer s) = ∅)) as [|Hpend];
      [done|].
    by destruct Hstop; apply (no_stop_put_while_pending sched s).
  - intros Hret. by apply (returned_all_finished sched s).
  - pose proof (inv_exec _ _ Hexec) as Hinv.
    assert (length sched ≤ full_run_length) as Hle.
    { destruct Hinv as [[-> ->] | (σ & lst & Hinv)].
      - cbn. unfold full_run_length. lia.
      - pose proof (ri_rank _ _ _ _ Hinv). lia. }
    destruct (program_terminates (full_run_length - length sched) sched s)
      as (sched' & s' & Hff' & Hexec' & Hret & Hlen); [done | done | lia |].
    exists sched', s'. repeat split; done.
Qed.

Lemma coordinate_pit_stop_full_cycle_witness :
  filter is_work_put (trace full_system) = work_puts
  ∧ pending_changes (engineer full_system) = ∅
  ∧ (∀ p, crew_members (engineer full_system) !! p
          = Some (mkPitCrewMember p [] CrewFinished)).
Proof.
  assert (fault_free full_schedule = true) as Hff by reflexivity.
  assert (exec full_schedule main_init = Some full_system) as Hexec
    by (vm_compute; reflexivity).
  pose proof (coordinate_pit_stop_full_cycle full_schedule full_system
                Hff Hexec) as (_ & _ & Hwork & Hstop & Hret & _).
  split; [apply Hwork; discriminate|].
  split; [apply Hstop; vm_compute; discriminate|].
  apply Hret. vm_compute. reflexivity.
Defined.

(** * Further properties of the program *)

(** ** Steps as moves between stages *)

Lemma all_acked_spec σ :
  all_acked σ = true ↔ ∀ p, stage_pending (σ p) = false.
Proof.
  unfold all_acked, all_Position. cbn. rewrite !andb_true_iff.
  rewrite !negb_true_iff. split.
  - intros (H1 & H2 & H3 & H4 & _) []; assumption.
  - intros H. repeat split; apply H.
Qed.

Lemma running_inv_pending_empty sched s σ lst :
  running_inv sched s σ lst →
  pending_changes (engineer s) = ∅ ↔ all_acked σ = true.
Proof.
  intros Hinv. rewrite all_acked_spec. split.
  - intros Hempty p. destruct (stage_pending (σ p)) eqn:Hp; [|done].
    apply (ri_pending _ _ _ _ Hinv) in Hp. rewrite Hempty in Hp.
    by apply not_elem_of_empty in Hp.
  - intros Hall. apply set_eq. intros p.
    rewrite (ri_pending _ _ _ _ Hinv), Hall.
    split; [discriminate | intros H; by apply not_elem_of_empty in H].
Qed.

Lemma step_protocol_move sched s σ lst l s' :
  running_inv sched s σ lst →
  step l s = Some s' →
  ∃ σ' lst' evs,
    running_inv (sched ++ [l]) s' σ' lst'
    ∧ trace s' = trace s ++ evs
    ∧ protocol_move σ σ' lst lst' l evs.
Proof.
  intros Hinv Hstep.
  destruct l as [|p|p]; unfold step in Hstep.
  - unfold coordinate_pit_stop in Hstep.
    pose proof (ri_ctl _ _ _ _ Hinv) as Hok.
    destruct (ctl (engineer s)) eqn:Hctl; cbn in Hok; try done.
    + unfold RaceEngineer_run in Hstep.
      destruct (decide (pending_changes (engineer s) = ∅)) as [Hpend|Hpend].
      * injection Hstep as <-.
        pose proof (running_inv_shutdown sched s σ lst Hinv Hctl Hpend)
          as Hinv'.
        exists (fun _ => Stopping), [], stop_puts.
        split; [exact Hinv'|]. split.
        -- cbn [commit trace]. f_equal. apply stop_events_all.
           intros p. rewrite (ri_crew _ _ _ _ Hinv). eauto.
        -- apply pm_shutdown; try done.
           ++ eauto using running_inv_all_acked.
           ++ destruct lst as [|p lst]; [done|]. exfalso.
              assert (σ p = Signalled) as Hp
                by (apply (ri_signalled _ _ _ _ Hinv); set_solver).
              rewrite (running_inv_all_acked _ _ _ _ Hinv Hctl Hpend p) in Hp.
              discriminate.
      * rewrite (ri_mailbox _ _ _ _ Hinv) in Hstep.
        destruct lst as [|p lst]; [discriminate|].
        cbn [fmap list_fmap completion Message2 msg_type position] in Hstep.
        assert (σ p = Signalled) as Hp
          by (apply (ri_signalled _ _ _ _ Hinv); set_solver).
        assert (p ∈ pending_changes (engineer s)) as Hin.
        { apply (ri_pending _ _ _ _ Hinv). by rewrite Hp. }
        rewrite decide_True in Hstep by exact Hin. rewrite Hctl in Hstep.
        exists (set_stage σ p Acked), lst.
        destruct (decide (pending_changes (engineer s) ∖ {[p]} = ∅))
          as [Hlast|Hmore]; injection Hstep as <-.
        -- pose proof (running_inv_ack sched s σ lst p
                         [Get EngineerQ (completion p); Log all_complete_line]
                         Hinv Hctl) as Hinv'.
           eexists. split; [exact Hinv'|]. split; [reflexivity|].
           assert (all_acked (set_stage σ p Acked) = true) as Hall
             by (by apply (running_inv_pending_empty _ _ _ _ Hinv')).
           pose proof (pm_ack σ (set_stage σ p Acked) (p :: lst) lst p
                         Hp eq_refl eq_refl) as Hmove.
           by rewrite Hall in Hmove.
        -- pose proof (running_inv_ack sched s σ lst p
                         [Get EngineerQ (completion p)] Hinv Hctl) as Hinv'.
           eexists. split; [exact Hinv'|]. split; [reflexivity|].
           assert (all_acked (set_stage σ p Acked) = false) as Hall.
           { destruct (all_acked (set_stage σ p Acked)) eqn:Hall; [|done].
             by apply (running_inv_pending_empty _ _ _ _ Hinv') in Hall. }
           pose proof (pm_ack σ (set_stage σ p Acked) (p :: lst) lst p
                         Hp eq_refl eq_refl) as Hmove.
           by rewrite Hall in Hmove.
    + pose proof (gather_outcome (engineer s) σ (ri_crew _ _ _ _ Hinv) Hok)
        as [Hraised Hfin].
      rewrite Hraised in Hstep.
      destruct (forallb is_finished (crew_tasks (engineer s))) eqn:Hall;
        [|discriminate].
      injection Hstep as <-. exists σ, lst, [].
      split; [|split; [reflexivity|]].
      * apply (running_inv_gather sched s σ lst Hinv Hctl). by apply Hfin.
      * apply pm_gather; try done. by apply Hfin.
  - destruct (loop_running (engineer s)) eqn:Hrun; [|discriminate].
    apply loop_running_not_returned in Hrun.
    rewrite (ri_crew _ _ _ _ Hinv) in Hstep.
    destruct (σ p) eqn:Hp; cbn in Hstep; try discriminate;
      injection Hstep as <-.
    + exists (set_stage σ p Working), lst. eexists.
      split; [|split; [reflexivity | by constructor]].
      refine (running_inv_member sched s σ lst (RunCrew p) p Working _
                Hinv Hrun _ _ _ _ _ _);
        rewrite ?Hp; done.
    + exists (set_stage σ p Signalled), (lst ++ [p]). eexists.
      split; [|split; [reflexivity | by constructor]].
      by apply running_inv_reply.
    + exists (set_stage σ p Stopped), lst. eexists.
      split; [|split; [reflexivity | by constructor]].
      refine (running_inv_member sched s σ lst (RunCrew p) p Stopped _
                Hinv Hrun _ _ _ _ _ _);
        rewrite ?Hp; done.
  - destruct (loop_running (engineer s)) eqn:Hrun; [|discriminate].
    apply loop_running_not_returned in Hrun.
    rewrite (ri_crew _ _ _ _ Hinv) in Hstep.
    destruct (σ p) eqn:Hp; cbn in Hstep; try discriminate;
      injection Hstep as <-.
    exists (set_stage σ p Failed), lst, [].
    split; [|split; [reflexivity | by constructor]].
    exact (running_inv_member sched s σ lst (WorkFails p) p Failed []
             Hinv Hrun ltac:(by rewrite Hp) ltac:(done)
             ltac:(by rewrite Hp) ltac:(by rewrite Hp)
             ltac:(by rewrite Hp) ltac:(done)).
Qed.

(** Induction over the schedules from [main_init], following the stages. *)
Lemma exec_stage_ind
    (P : System → (Position → Stage) → list Position → Prop) :
  P dispatched_system (fun _ => Queued) [] →
  (∀ sched s σ lst l s' σ' lst' evs,
     running_inv sched s σ lst → P s σ lst →
     running_inv (sched ++ [l]) s' σ' lst' →
     trace s' = trace s ++ evs →
     protocol_move σ σ' lst lst' l evs →
     P s' σ' lst') →
  ∀ sched s,
    exec sched main_init = Some s → sched ≠ [] →
    ∃ σ lst, running_inv sched s σ lst ∧ P s σ lst.
Proof.
  intros Hdisp Hmove sched.
  induction sched as [|l sched IH] using rev_ind; intros s; [done|].
  intros (s1 & Hexec & Hs)%exec_snoc _.
  destruct sched as [|l0 sched].
  - injection Hexec as <-. apply step_main_init in Hs as [-> ->].
    exists (fun _ => Queued), []. split; [apply running_inv_dispatch | done].
  - destruct (IH s1 Hexec) as (σ & lst & Hinv & HP); [done|].
    destruct (step_protocol_move _ _ _ _ _ _ Hinv Hs)
      as (σ' & lst' & evs & Hinv' & Htr & Hpm).
    exists σ', lst'. split; [done|].
    exact (Hmove _ _ _ _ _ _ _ _ _ Hinv HP Hinv' Htr Hpm).
Qed.

(** ** What no run does *)

(** X1: in no run does the coordinator end with an exception, so
    [set.remove] never raises [KeyError]; and a crew task ends with an
    exception only by a failure of its simulated work, so in the runs of
    the program itself no task raises and [AttributeError] never occurs. *)
Theorem program_never_raises sched s :
  exec sched main_init = Some s →
  (∀ e, ctl (engineer s) ≠ EngRaised e)
  ∧ (∀ p c e,
       crew_members (engineer s) !! p = Some c →
       crew_ctl c = CrewRaised e →
       e = WorkerFailure ∧ fault_free sched = false).
Proof.
  intros Hexec.
  destruct (inv_exec _ _ Hexec) as [[-> ->] | (σ & lst & Hinv)].
  - split; [discriminate|]. intros [] c e [= <-]; discriminate.
  - split.
    + intros e He. pose proof (ri_ctl _ _ _ _ Hinv) as Hok.
      by rewrite He in Hok.
    + intros p c e Hc He. rewrite (ri_crew _ _ _ _ Hinv) in Hc.
      injection Hc as <-.
      destruct (σ p) eqn:Hp; try discriminate. injection He as <-.
      split; [done|]. by apply (ri_failed _ _ _ _ Hinv p).
Qed.

Lemma program_never_raises_witness :
  (∀ e, ctl (engineer stalled_system) ≠ EngRaised e)
  ∧ (∀ p c e,
       crew_members (engineer stalled_system) !! p = Some c →
       crew_ctl c = CrewRaised e →
       e = WorkerFailure ∧ fault_free stalled_schedule = false).
Proof.
  apply (program_never_raises stalled_schedule stalled_system).
  vm_compute. reflexivity.
Defined.

(** ** What the mailboxes hold *)

(** X2: in every run the engineer's mailbox holds only completion messages,
    for pairwise different positions that are all still pending; so it
    never holds more messages than positions are pending. *)
Theorem engineer_mailbox_holds_pending_completions sched s :
  exec sched main_init = Some s →
  ∃ lst,
    mailbox (engineer s) = completion <$> lst
    ∧ NoDup lst
    ∧ (∀ p, p ∈ lst → p ∈ pending_changes (engineer s))
    ∧ length (mailbox (engineer s)) ≤ size (pending_changes (engineer s)).
Proof.
  intros Hexec.
  destruct (inv_exec _ _ Hexec) as [[-> ->] | (σ & lst & Hinv)].
  - exists []. split; [done|]. split; [constructor|].
    split; [intros p Hp; by apply elem_of_nil in Hp|]. cbn. lia.
  - exists lst.
    assert (∀ p, p ∈ lst → p ∈ pending_changes (engineer s)) as Hsub.
    { intros p Hp. apply (ri_pending _ _ _ _ Hinv).
      apply (ri_signalled _ _ _ _ Hinv) in Hp. by rewrite Hp. }
    split; [apply (ri_mailbox _ _ _ _ Hinv)|].
    split; [apply (ri_nodup _ _ _ _ Hinv)|]. split; [done|].
    rewrite (ri_mailbox _ _ _ _ Hinv), length_fmap.
    rewrite <- (size_list_to_set (C:=gset Position) lst)
      by apply (ri_nodup _ _ _ _ Hinv).
    apply subseteq_size. intros p Hp. apply Hsub.
    by apply elem_of_list_to_set in Hp.
Qed.

Lemma engineer_mailbox_holds_pending_completions_witness :
  ∃ lst,
    mailbox (engineer waiting_system) = completion <$> lst
    ∧ NoDup lst
    ∧ (∀ p, p ∈ lst → p ∈ pending_changes (engineer waiting_system))
    ∧ length (mailbox (engineer waiting_system))
      ≤ size (pending_changes (engineer waiting_system)).
Proof.
  apply (engineer_mailbox_holds_pending_completions waiting_schedule).
  vm_compute. reflexivity.
Defined.

(** In that state the completions of the rear left and front left members
    are waiting, in the order they were put. *)
Example waiting_system_mailbox :
  mailbox (engineer waiting_system)
  = [completion REAR_LEFT; completion FRONT_LEFT].
Proof. vm_compute. reflexivity. Qed.

(** X3: in every run the dictionary of crew members has the four
    positions as keys, the member under a key has that position, and its
    mailbox is empty or holds one message: its work message, as long as it
    has not taken it, or a stop message.  A member asleep, finished or
    failed has an empty mailbox. *)
Theorem crew_mailbox_holds_at_most_one_message sched s p :
  exec sched main_init = Some s →
  ∃ c,
    crew_members (engineer s) !! p = Some c
    ∧ crew_position c = p
    ∧ (crew_mailbox c = []
       ∨ (crew_mailbox c = [change_tire_message p]
          ∧ crew_ctl c = CrewReceiving
          ∧ p ∈ pending_changes (engineer s))
       ∨ (crew_mailbox c = [stop_message]
          ∧ crew_ctl c = CrewReceiving
          ∧ pending_changes (engineer s) = ∅)).
Proof.
  intros Hexec.
  destruct (inv_exec _ _ Hexec) as [[-> ->] | (σ & lst & Hinv)].
  - exists (PitCrewMember_init p). split; [by destruct p|]. split; [done|].
    by left.
  - exists (stage_member p (σ p)). split; [apply (ri_crew _ _ _ _ Hinv)|].
    split; [by destruct (σ p)|].
    destruct (σ p) eqn:Hp; cbn; auto.
    + right. left. split; [done|]. split; [done|].
      apply (ri_pending _ _ _ _ Hinv). by rewrite Hp.
    + right. right. split; [done|]. split; [done|].
      apply (running_inv_pending_empty _ _ _ _ Hinv), all_acked_spec.
      intros p'. pose proof (ri_ctl _ _ _ _ Hinv) as Hok.
      destruct (ctl (engineer s)); cbn in Hok; try done.
      * specialize (Hok p). by rewrite Hp in Hok.
      * specialize (Hok p'). by destruct (σ p').
      * by rewrite Hok.
Qed.

Lemma crew_mailbox_holds_at_most_one_message_witness :
  ∃ c,
    crew_members (engineer stalled_system) !! REAR_LEFT = Some c
    ∧ crew_position c = REAR_LEFT
    ∧ (crew_mailbox c = []
       ∨ (crew_mailbox c = [change_tire_message REAR_LEFT]
          ∧ crew_ctl c = CrewReceiving
          ∧ REAR_LEFT ∈ pending_changes (engineer stalled_system))
       ∨ (crew_mailbox c = [stop_message]
          ∧ crew_ctl c = CrewReceiving
          ∧ pending_changes (engineer stalled_system) = ∅)).
Proof.
  apply (crew_mailbox_holds_at_most_one_message stalled_schedule).
  vm_compute. reflexivity.
Defined.

(** ** The pending set from any state *)

Lemma deliver_pending evs self :
  pending_changes (deliver evs self) = pending_changes self.
Proof.
  revert self. induction evs as [|ev evs IH]; intros self; [reflexivity|].
  destruct ev as [| |q m|]; cbn [deliver]; rewrite ?IH; try reflexivity.
  by destruct q.
Qed.

Lemma RaceEngineer_run_pending (self : RaceEngineer) :
  match RaceEngineer_run self with
  | RunNext self' _ =>
      pending_changes self' = pending_changes self
      ∨ ∃ p, p ∈ pending_changes self
             ∧ pending_changes self' = pending_changes self ∖ {[p]}
  | RunRaise _ self' _ => pending_changes self' = pending_changes self
  | RunReturn | RunAwait => True
  end.
Proof.
  unfold RaceEngineer_run. case_decide; [done|].
  destruct (mailbox self) as [|m rest]; [done|].
  destruct (msg_type m); cbn; auto.
  destruct (position m) as [p|]; [|done].
  case_decide; [|done]. case_decide; cbn; eauto.
Qed.

Lemma step_pending l s s' :
  step l s = Some s' →
  pending_changes (engineer s') ⊆ pending_changes (engineer s)
  ∧ (l ≠ RunEngineer →
     pending_changes (engineer s') = pending_changes (engineer s)).
Proof.
  intros Hstep.
  assert (pending_changes (engineer s') = pending_changes (engineer s)
          ∨ (l = RunEngineer
             ∧ ∃ p, pending_changes (engineer s')
                    = pending_changes (engineer s) ∖ {[p]})) as Hcases.
  { destruct l as [|p|p]; unfold step in Hstep.
    - unfold coordinate_pit_stop in Hstep.
      destruct (ctl (engineer s)).
      + injection Hstep as <-. left. cbn. by rewrite deliver_pending.
      + pose proof (RaceEngineer_run_pending (engineer s)) as Hrun.
        destruct (RaceEngineer_run (engineer s)) as [| |self' evs|e self' evs];
          try discriminate; injection Hstep as <-; cbn;
          rewrite deliver_pending; cbn; auto.
        destruct Hrun as [Hsame | (p & _ & Hless)]; eauto.
      + destruct (first_raised (crew_tasks (engineer s)));
          [|destruct (forallb is_finished (crew_tasks (engineer s)))];
          try discriminate; injection Hstep as <-; left; reflexivity.
      + discriminate.
      + discriminate.
    - destruct (loop_running (engineer s)); [|discriminate].
      destruct (crew_members (engineer s) !! p) as [c|]; [|discriminate].
      destruct (PitCrewMember_run c) as [[c' evs]|]; [|discriminate].
      injection Hstep as <-. left. cbn. by rewrite deliver_pending.
    - destruct (loop_running (engineer s)); [|discriminate].
      destruct (crew_members (engineer s) !! p) as [c|]; [|discriminate].
      destruct (crew_ctl c); try discriminate.
      injection Hstep as <-. left. reflexivity. }
  destruct Hcases as [-> | (-> & p & ->)]; [done|].
  split; [set_solver | done].
Qed.

(** X4: from any state whatever and along any schedule, so along any
    resumption of a task and any run of the event loop, no position is
    ever added to the pending set, and the set is left as it was when the
    coordinator takes no step. *)
Theorem pending_set_never_grows sched s s' :
  exec sched s = Some s' →
  pending_changes (engineer s') ⊆ pending_changes (engineer s)
  ∧ (RunEngineer ∉ sched →
     pending_changes (engineer s') = pending_changes (engineer s)).
Proof.
  revert s. induction sched as [|l sched IH]; intros s.
  - intros [= <-]. done.
  - cbn [exec]. destruct (step l s) as [s1|] eqn:Hstep; [|discriminate].
    intros Hexec. destruct (IH s1 Hexec) as [Hsub Hsame].
    destruct (step_pending l s s1 Hstep) as [Hsub1 Hsame1]. split.
    + set_solver.
    + intros Hnot. rewrite Hsame, Hsame1; [done | |].
      * intros ->. apply Hnot. by left.
      * intros Hin. apply Hnot. by right.
Qed.

Lemma pending_set_never_grows_witness :
  pending_changes (engineer stalled_system)
  ⊆ pending_changes (engineer main_init).
Proof.
  refine (proj1 (pending_set_never_grows stalled_schedule main_init
                   stalled_system _)).
  vm_compute. reflexivity.
Defined.

(** ** Progress *)

(** X6: when nothing fails the program cannot get stuck: a state reached
    in which neither the coordinator nor any crew member can take a step
    is a state in which [coordinate_pit_stop] has returned; and once it
    has returned nothing can take a step. *)
Theorem no_deadlock_without_failure sched s :
  fault_free sched = true →
  exec sched main_init = Some s →
  (∀ l, is_program_step l = true → step l s = None)
  ↔ ctl (engineer s) = EngReturned.
Proof.
  intros Hff Hexec. split.
  - intros Hstuck.
    destruct (inv_exec _ _ Hexec) as [[-> ->] | (σ & lst & Hinv)].
    { by specialize (Hstuck RunEngineer eq_refl). }
    destruct (decide (ctl (engineer s) = EngReturned)) as [|Hnot]; [done|].
    destruct (program_progress sched s σ lst Hinv Hff Hnot)
      as (l & s' & Hl & Hstep).
    rewrite (Hstuck l Hl) in Hstep. discriminate.
  - intros Hret [|p|p] _; unfold step, coordinate_pit_stop, loop_running;
      by rewrite Hret.
Qed.

Lemma no_deadlock_without_failure_witness :
  (∀ l, is_program_step l = true → step l full_system = None)
  ↔ ctl (engineer full_system) = EngReturned.
Proof.
  apply (no_deadlock_without_failure full_schedule full_system).
  - reflexivity.
  - vm_compute. reflexivity.
Defined.

(** ** The events of each actor *)

Lemma crew_events_move σ σ' lst lst' l evs p :
  protocol_move σ σ' lst lst' l evs →
  crew_events p (σ' p) = crew_events p (σ p) ++ filter (is_crew_event p) evs.
Proof.
  intros [Hacked -> _ _|p0 Hp0 -> _| _ -> _|p0 Hp0 -> _|p0 Hp0 -> _
         |p0 Hp0 -> _|p0 Hp0 -> _].
  - rewrite Hacked. by destruct p.
  - assert (filter (is_crew_event p)
              (Get EngineerQ (completion p0)
                 :: (if all_acked (set_stage σ p0 Acked)
                     then [Log all_complete_line] else [])) = []) as ->.
    { destruct (all_acked (set_stage σ p0 Acked)); by destruct p. }
    rewrite app_nil_r. destruct (decide (p = p0)) as [->|Hne].
    + by rewrite set_stage_eq, Hp0.
    + by rewrite set_stage_ne.
  - by rewrite app_nil_r.
  - destruct (decide (p = p0)) as [->|Hne].
    + rewrite set_stage_eq, Hp0. by destruct p0.
    + rewrite set_stage_ne by done.
      assert (filter (is_crew_event p)
                [Get (CrewQ p0) (change_tire_message p0);
                 Log (starting_line p0); Sleep p0] = []) as ->
        by (by destruct p, p0).
      by rewrite app_nil_r.
  - destruct (decide (p = p0)) as [->|Hne].
    + rewrite set_stage_eq, Hp0. by destruct p0.
    + rewrite set_stage_ne by done.
      assert (filter (is_crew_event p)
                [Log (completed_line p0); Put EngineerQ (completion p0)] = [])
        as -> by (by destruct p, p0).
      by rewrite app_nil_r.
  - destruct (decide (p = p0)) as [->|Hne].
    + rewrite set_stage_eq, Hp0. by destruct p0.
    + rewrite set_stage_ne by done.
      assert (filter (is_crew_event p) [Get (CrewQ p0) stop_message] = [])
        as -> by (by destruct p, p0).
      by rewrite app_nil_r.
  - rewrite app_nil_r. destruct (decide (p = p0)) as [->|Hne].
    + by rewrite set_stage_eq, Hp0.
    + by rewrite set_stage_ne.
Qed.

Lemma crew_events_by_stage sched s :
  exec sched main_init = Some s → sched ≠ [] →
  ∃ σ lst,
    running_inv sched s σ lst
    ∧ ∀ p, filter (is_crew_event p) (trace s) = crew_events p (σ p).
Proof.
  revert sched s.
  apply (exec_stage_ind
           (fun s σ _ =>
              ∀ p, filter (is_crew_event p) (trace s) = crew_events p (σ p))).
  - by intros [].
  - intros sched s σ lst l s' σ' lst' evs _ IH _ Htr Hmove p.
    by rewrite Htr, filter_app, IH, (crew_events_move _ _ _ _ _ _ p Hmove).
Qed.

(** X7: in every run, failures included, the events of a crew member are
    an initial part of one fixed sequence: it takes its work message,
    logs, sleeps, logs, puts its completion message, takes the stop
    message.  Once [coordinate_pit_stop] has returned they are the whole
    sequence: every member has done each of these exactly once. *)
Theorem crew_member_events_are_fixed sched s p :
  exec sched main_init = Some s →
  filter (is_crew_event p) (trace s) `prefix_of` crew_events p Stopped
  ∧ (ctl (engineer s) = EngReturned →
     filter (is_crew_event p) (trace s)
     = [Get (CrewQ p) (change_tire_message p); Log (starting_line p);
        Sleep p; Log (completed_line p); Put EngineerQ (completion p);
        Get (CrewQ p) stop_message]).
Proof.
  intros Hexec. destruct sched as [|l sched].
  - injection Hexec as <-. split; [by eexists | discriminate].
  - destruct (crew_events_by_stage _ _ Hexec) as (σ & lst & Hinv & Hev);
      [done|].
    rewrite Hev. split.
    + destruct (σ p); cbn; eexists; by rewrite <- ?app_comm_cons.
    + intros Hret. pose proof (ri_ctl _ _ _ _ Hinv) as Hok.
      rewrite Hret in Hok. by rewrite (Hok p).
Qed.

Lemma crew_member_events_are_fixed_witness :
  filter (is_crew_event REAR_LEFT) (trace full_system)
  = [Get (CrewQ REAR_LEFT) (change_tire_message REAR_LEFT);
     Log (starting_line REAR_LEFT); Sleep REAR_LEFT;
     Log (completed_line REAR_LEFT); Put EngineerQ (completion REAR_LEFT);
     Get (CrewQ REAR_LEFT) stop_message].
Proof.
  refine (proj2 (crew_member_events_are_fixed full_schedule full_system
                   REAR_LEFT _) _).
  - vm_compute. reflexivity.
  - vm_compute. reflexivity.
Defined.

Lemma all_acked_false σ p : stage_pending (σ p) = true → all_acked σ = false.
Proof.
  intros Hp. destruct (all_acked σ) eqn:Hall; [|done].
  rewrite all_acked_spec in Hall. by rewrite Hall in Hp.
Qed.

Lemma all_acked_set_stage σ p st :
  stage_pending st = stage_pending (σ p) →
  all_acked (set_stage σ p st) = all_acked σ.
Proof.
  intros Hst. apply eq_true_iff_eq. rewrite !all_acked_spec.
  split; intros Hall p'.
  - destruct (decide (p' = p)) as [->|Hne].
    + rewrite <- Hst. specialize (Hall p). by rewrite set_stage_eq in Hall.
    + specialize (Hall p'). by rewrite set_stage_ne in Hall.
  - destruct (decide (p' = p)) as [->|Hne].
    + by rewrite set_stage_eq, Hst.
    + by rewrite set_stage_ne.
Qed.

Lemma all_complete_log_move σ σ' lst lst' l evs :
  protocol_move σ σ' lst lst' l evs →
  (if all_acked σ' then [Log all_complete_line] else [])
  = (if all_acked σ then [Log all_complete_line] else [])
    ++ filter is_all_complete_log evs.
Proof.
  intros [Hacked -> _ _|p0 Hp0 -> _| _ -> _|p0 Hp0 -> _|p0 Hp0 -> _
         |p0 Hp0 -> _|p0 Hp0 -> _].
  - assert (all_acked σ = true) as ->.
    { apply all_acked_spec. intros p. by rewrite Hacked. }
    reflexivity.
  - rewrite (all_acked_false σ p0) by (by rewrite Hp0).
    by destruct (all_acked (set_stage σ p0 Acked)).
  - by rewrite app_nil_r.
  - rewrite (all_acked_false σ p0) by (by rewrite Hp0).
    rewrite (all_acked_false (set_stage σ p0 Working) p0)
      by (by rewrite set_stage_eq).
    by destruct p0.
  - rewrite (all_acked_false σ p0) by (by rewrite Hp0).
    rewrite (all_acked_false (set_stage σ p0 Signalled) p0)
      by (by rewrite set_stage_eq).
    by destruct p0.
  - rewrite all_acked_set_stage by (by rewrite Hp0).
    by rewrite app_nil_r.
  - rewrite all_acked_set_stage by (by rewrite Hp0).
    by rewrite app_nil_r.
Qed.

(** X8: in every run, once the coordinator has started, the line of
    [run] that announces the end of the tire changes has been logged
    exactly once if the pending set is empty and never if it is not. *)
Theorem all_complete_logged_once_when_pending_empty sched s :
  exec sched main_init = Some s →
  sched ≠ [] →
  filter is_all_complete_log (trace s)
  = if decide (pending_changes (engineer s) = ∅)
    then [Log all_complete_line] else [].
Proof.
  intros Hexec Hne.
  destruct (exec_stage_ind
              (fun s σ _ =>
                 filter is_all_complete_log (trace s)
                 = if all_acked σ then [Log all_complete_line] else []))
    with (sched := sched) (s := s) as (σ & lst & Hinv & Hlog); try done.
  - intros sched0 s0 σ lst l s' σ' lst' evs _ IH _ Htr Hmove.
    by rewrite Htr, filter_app, IH, (all_complete_log_move _ _ _ _ _ _ Hmove).
  - rewrite Hlog.
    pose proof (running_inv_pending_empty _ _ _ _ Hinv) as Hiff.
    destruct (all_acked σ); case_decide as Hpend; try done.
    + by destruct Hpend; apply Hiff.
    + by apply Hiff in Hpend.
Qed.

Lemma all_complete_logged_once_when_pending_empty_witness :
  filter is_all_complete_log (trace full_system)
  = if decide (pending_changes (engineer full_system) = ∅)
    then [Log all_complete_line] else [].
Proof.
  apply (all_complete_logged_once_when_pending_empty full_schedule).
  - vm_compute. reflexivity.
  - discriminate.
Defined.

Lemma stop_puts_move σ σ' lst lst' l evs :
  protocol_move σ σ' lst lst' l evs →
  (if stage_shutdown (σ' FRONT_LEFT) then stop_puts else [])
  = (if stage_shutdown (σ FRONT_LEFT) then stop_puts else [])
    ++ filter is_stop_put evs.
Proof.
  intros [Hacked -> _ _|p0 Hp0 -> _| _ -> _|p0 Hp0 -> _|p0 Hp0 -> _
         |p0 Hp0 -> _|p0 Hp0 -> _].
  - by rewrite Hacked.
  - assert (filter is_stop_put
              (Get EngineerQ (completion p0)
                 :: (if all_acked (set_stage σ p0 Acked)
                     then [Log all_complete_line] else [])) = []) as ->
      by (by destruct (all_acked (set_stage σ p0 Acked))).
    rewrite app_nil_r. unfold set_stage. case_decide as Heq; [|done].
    by rewrite Heq, Hp0.
  - by rewrite app_nil_r.
  - cbn. rewrite app_nil_r. unfold set_stage. case_decide as Heq; [|done].
    by rewrite Heq, Hp0.
  - cbn. rewrite app_nil_r. unfold set_stage. case_decide as Heq; [|done].
    by rewrite Heq, Hp0.
  - cbn. rewrite app_nil_r. unfold set_stage. case_decide as Heq; [|done].
    by rewrite Heq, Hp0.
  - cbn. rewrite app_nil_r. unfold set_stage. case_decide as Heq; [|done].
    by rewrite Heq, Hp0.
Qed.

(** X11: in every run the stop messages put so far are none while the
    coordinator has not left [run], and from then on exactly one for each
    member, in the order of the dictionary: they are never put twice. *)
Theorem stop_messages_put_exactly_once sched s :
  exec sched main_init = Some s →
  filter is_stop_put (trace s)
  = match ctl (engineer s) with
    | EngGathering | EngReturned =>
        [Put (CrewQ FRONT_LEFT) stop_message;
         Put (CrewQ FRONT_RIGHT) stop_message;
         Put (CrewQ REAR_LEFT) stop_message;
         Put (CrewQ REAR_RIGHT) stop_message]
    | _ => []
    end.
Proof.
  intros Hexec. destruct sched as [|l0 sched0].
  { by injection Hexec as <-. }
  destruct (exec_stage_ind
              (fun s σ _ =>
                 filter is_stop_put (trace s)
                 = if stage_shutdown (σ FRONT_LEFT) then stop_puts else []))
    with (sched := l0 :: sched0) (s := s) as (σ & lst & Hinv & Hstop);
    try done.
  - intros sched1 s1 σ lst l s' σ' lst' evs _ IH _ Htr Hmove.
    by rewrite Htr, filter_app, IH, (stop_puts_move _ _ _ _ _ _ Hmove).
  - rewrite Hstop. pose proof (ri_ctl _ _ _ _ Hinv) as Hok.
    destruct (ctl (engineer s)); cbn in Hok; try done.
    + by rewrite Hok.
    + by rewrite Hok.
    + by rewrite Hok.
Qed.

Lemma stop_messages_put_exactly_once_witness :
  filter is_stop_put (trace full_system)
  = match ctl (engineer full_system) with
    | EngGathering | EngReturned =>
        [Put (CrewQ FRONT_LEFT) stop_message;
         Put (CrewQ FRONT_RIGHT) stop_message;
         Put (CrewQ REAR_LEFT) stop_message;
         Put (CrewQ REAR_RIGHT) stop_message]
    | _ => []
    end.
Proof.
  apply (stop_messages_put_exactly_once full_schedule).
  vm_compute. reflexivity.
Defined.

(** ** The queues *)

Lemma queue_puts_app q tr evs :
  queue_puts q (tr ++ evs) = queue_puts q tr ++ queue_puts q evs.
Proof. apply omap_app. Qed.

Lemma queue_gets_app q tr evs :
  queue_gets q (tr ++ evs) = queue_gets q tr ++ queue_gets q evs.
Proof. apply omap_app. Qed.

Lemma running_inv_content sched s σ lst q :
  running_inv sched s σ lst →
  queue_content q (engineer s) = stage_content σ lst q.
Proof.
  intros Hinv. destruct q as [|p]; cbn.
  - apply (ri_mailbox _ _ _ _ Hinv).
  - by rewrite (ri_crew _ _ _ _ Hinv).
Qed.

Lemma queue_move σ σ' lst lst' l evs q :
  protocol_move σ σ' lst lst' l evs →
  queue_gets q evs ++ stage_content σ' lst' q
  = stage_content σ lst q ++ queue_puts q evs.
Proof.
  intros [Hacked -> -> ->|p0 Hp0 -> ->| _ -> ->|p0 Hp0 -> ->|p0 Hp0 -> ->
         |p0 Hp0 -> ->|p0 Hp0 -> ->].
  - destruct q as [|p]; [reflexivity|]. cbn [stage_content].
    rewrite Hacked. by destruct p.
  - assert (∀ tail : list Event,
              tail = [] ∨ tail = [Log all_complete_line] →
              queue_gets q (Get EngineerQ (completion p0) :: tail)
                ++ stage_content (set_stage σ p0 Acked) lst' q
              = stage_content σ (p0 :: lst') q
                  ++ queue_puts q (Get EngineerQ (completion p0) :: tail))
      as Hboth.
    { intros tail [-> | ->]; (destruct q as [|p]; cbn;
        [by rewrite app_nil_r
        |destruct (decide (p = p0)) as [->|Hne];
         [by rewrite set_stage_eq, Hp0
         |by rewrite set_stage_ne, ?app_nil_r by done]]). }
    destruct (all_acked (set_stage σ p0 Acked)); apply Hboth; auto.
  - cbn. by rewrite app_nil_r.
  - destruct q as [|p]; cbn; [by rewrite app_nil_r|].
    destruct (decide (p = p0)) as [->|Hne].
    + rewrite set_stage_eq, Hp0, decide_True by done. reflexivity.
    + rewrite set_stage_ne, decide_False by congruence.
      by rewrite app_nil_r.
  - destruct q as [|p]; cbn; [by rewrite fmap_app|].
    destruct (decide (p = p0)) as [->|Hne].
    + by rewrite set_stage_eq, Hp0.
    + rewrite set_stage_ne by done. by rewrite app_nil_r.
  - destruct q as [|p]; cbn; [by rewrite app_nil_r|].
    destruct (decide (p = p0)) as [->|Hne].
    + rewrite set_stage_eq, Hp0, decide_True by done. reflexivity.
    + rewrite set_stage_ne, decide_False by congruence.
      by rewrite app_nil_r.
  - destruct q as [|p]; cbn; [by rewrite app_nil_r|].
    destruct (decide (p = p0)) as [->|Hne].
    + by rewrite set_stage_eq, Hp0.
    + rewrite set_stage_ne by done. by rewrite app_nil_r.
Qed.

(** X9: in every run and for every queue, the messages put in the queue
    are, in the same order, the messages taken from it followed by the
    messages waiting in it: no message is lost, taken twice or overtaken.
    In particular the engineer takes the completion messages in the order
    in which the members put them. *)
Theorem queues_are_first_in_first_out sched s q :
  exec sched main_init = Some s →
  queue_puts q (trace s)
  = queue_gets q (trace s) ++ queue_content q (engineer s).
Proof.
  intros Hexec. destruct sched as [|l0 sched0].
  { injection Hexec as <-. by destruct q as [|[]]. }
  destruct (exec_stage_ind
              (fun s σ lst =>
                 ∀ q, queue_puts q (trace s)
                      = queue_gets q (trace s) ++ stage_content σ lst q))
    with (sched := l0 :: sched0) (s := s) as (σ & lst & Hinv & Hq);
    try done.
  - by intros [|[]].
  - intros sched1 s1 σ lst l s' σ' lst' evs _ IH _ Htr Hmove q'.
    rewrite Htr, queue_puts_app, queue_gets_app, IH.
    rewrite <- !app_assoc. f_equal. symmetry.
    by apply (queue_move _ _ _ _ l).
  - by rewrite Hq, (running_inv_content _ _ _ _ _ Hinv).
Qed.

Lemma queues_are_first_in_first_out_witness :
  queue_puts EngineerQ (trace stalled_system)
  = queue_gets EngineerQ (trace stalled_system)
      ++ queue_content EngineerQ (engineer stalled_system).
Proof.
  apply (queues_are_first_in_first_out stalled_schedule).
  vm_compute. reflexivity.
Defined.

(** ** A crew member working through its mailbox *)

Lemma PitCrewMember_run_alone_finished fuel pos rest :
  PitCrewMember_run_alone fuel (mkPitCrewMember pos rest CrewFinished)
  = (mkPitCrewMember pos rest CrewFinished, []).
Proof. by destruct fuel. Qed.

Lemma PitCrewMember_run_alone_empty fuel pos :
  PitCrewMember_run_alone fuel (mkPitCrewMember pos [] CrewReceiving)
  = (mkPitCrewMember pos [] CrewReceiving, []).
Proof. by destruct fuel. Qed.

(** X10: a member at the top of its loop, left alone with a mailbox that
    begins with messages that are not stop messages, the work messages
    among them naming a reply queue other than the member's own mailbox,
    followed by nothing or by a stop message and more, takes the messages
    in order and puts exactly one completion message for each work
    message, to the reply queue that message names, and nothing else.
    With no stop message it ends waiting on an empty mailbox; with one it
    leaves its loop there and the messages behind the stop message stay in
    the mailbox unread. *)
Theorem crew_member_works_through_mailbox (pos : Position)
    (msgs rest : list Message) (fuel : nat) :
  Forall (answerable pos) msgs →
  2 * length msgs + 1 ≤ fuel →
  (rest = [] →
   ∃ evs,
     PitCrewMember_run_alone fuel (mkPitCrewMember pos msgs CrewReceiving)
     = (mkPitCrewMember pos [] CrewReceiving, evs)
     ∧ filter is_put evs = replies pos msgs)
  ∧ (∀ stop rest', rest = stop :: rest' → msg_type stop = STOP →
     ∃ evs,
       PitCrewMember_run_alone fuel
         (mkPitCrewMember pos (msgs ++ rest) CrewReceiving)
       = (mkPitCrewMember pos rest' CrewFinished, evs)
       ∧ filter is_put evs = replies pos msgs).
Proof.
  assert (∀ box c m, deliver_own (mkPitCrewMember pos box c)
                       [Get (CrewQ pos) m]
                     = mkPitCrewMember pos box c) as Hget.
  { intros box c m. unfold deliver_own. cbn. by rewrite app_nil_r. }
  assert (∀ box c m, deliver_own (mkPitCrewMember pos box c)
                       [Get (CrewQ pos) m; Log (starting_line pos);
                        Sleep pos]
                     = mkPitCrewMember pos box c) as Hstart.
  { intros box c m. unfold deliver_own. cbn. by rewrite app_nil_r. }
  assert (∀ box c q, q ≠ CrewQ pos →
            deliver_own (mkPitCrewMember pos box c)
              [Log (completed_line pos); Put q (completion pos)]
            = mkPitCrewMember pos box c) as Hreply.
  { intros box c q Hq. unfold deliver_own. cbn.
    rewrite decide_False by done. by rewrite app_nil_r. }
  revert fuel. induction msgs as [|m msgs IH]; intros fuel Hall Hfuel.
  - split.
    + intros _. exists []. by rewrite PitCrewMember_run_alone_empty.
    + intros stop rest' -> Hstop.
      destruct fuel as [|fuel]; [cbn in Hfuel; lia|].
      cbn [app PitCrewMember_run_alone]. unfold PitCrewMember_run.
      cbn [crew_ctl crew_mailbox crew_position]. rewrite Hstop, Hget.
      rewrite PitCrewMember_run_alone_finished. eexists. split; [done|].
      reflexivity.
  - apply Forall_cons in Hall as [[Hnostop Hreplyq] Hall].
    cbn [length] in Hfuel.
    destruct fuel as [|fuel]; [lia|].
    destruct (msg_type m) eqn:Hty; [| |done].
    + (* a work message: two turns *)
      destruct (Hreplyq eq_refl) as (q & Hq & Hother).
      destruct fuel as [|fuel]; [lia|].
      destruct (IH fuel Hall) as [IHnone IHstop]; [lia|].
      assert (replies pos (m :: msgs)
              = Put q (completion pos) :: replies pos msgs) as Hrep.
      { unfold replies. cbn. by rewrite Hty, Hq. }
      split.
      * intros Hrest. destruct (IHnone Hrest) as (evs & Hrun & Hputs).
        cbn [PitCrewMember_run_alone]. unfold PitCrewMember_run at 1.
        cbn [crew_ctl crew_mailbox crew_position]. rewrite Hty, Hstart.
        unfold PitCrewMember_run at 1.
        cbn [crew_ctl crew_mailbox crew_position].
        rewrite Hq, (Hreply _ _ _ Hother), Hrun.
        eexists. split; [done|]. rewrite Hrep, <- Hputs. reflexivity.
      * intros stop rest' Hrest Hstop.
        destruct (IHstop stop rest' Hrest Hstop) as (evs & Hrun & Hputs).
        cbn [app PitCrewMember_run_alone]. unfold PitCrewMember_run at 1.
        cbn [crew_ctl crew_mailbox crew_position]. rewrite Hty, Hstart.
        unfold PitCrewMember_run at 1.
        cbn [crew_ctl crew_mailbox crew_position].
        rewrite Hq, (Hreply _ _ _ Hother), Hrun.
        eexists. split; [done|]. rewrite Hrep, <- Hputs. reflexivity.
    + (* a message that is dropped: one turn *)
      destruct (IH fuel Hall) as [IHnone IHstop]; [lia|].
      assert (replies pos (m :: msgs) = replies pos msgs) as Hrep.
      { unfold replies. cbn. by rewrite Hty. }
      split.
      * intros Hrest. destruct (IHnone Hrest) as (evs & Hrun & Hputs).
        cbn [PitCrewMember_run_alone]. unfold PitCrewMember_run at 1.
        cbn [crew_ctl crew_mailbox crew_position]. rewrite Hty, Hget, Hrun.
        eexists. split; [done|]. rewrite Hrep, <- Hputs. reflexivity.
      * intros stop rest' Hrest Hstop.
        destruct (IHstop stop rest' Hrest Hstop) as (evs & Hrun & Hputs).
        cbn [app PitCrewMember_run_alone]. unfold PitCrewMember_run at 1.
        cbn [crew_ctl crew_mailbox crew_position]. rewrite Hty, Hget, Hrun.
        eexists. split; [done|]. rewrite Hrep, <- Hputs. reflexivity.
Qed.

Lemma crew_member_works_through_mailbox_witness :
  ∃ evs,
    PitCrewMember_run_alone 5
      (mkPitCrewMember REAR_LEFT
         ([completion FRONT_LEFT; change_tire_message REAR_LEFT]
            ++ [stop_message; change_tire_message FRONT_LEFT])
         CrewReceiving)
    = (mkPitCrewMember REAR_LEFT [change_tire_message FRONT_LEFT]
         CrewFinished, evs)
    ∧ filter is_put evs
      = replies REAR_LEFT
          [completion FRONT_LEFT; change_tire_message REAR_LEFT].
Proof.
  refine (proj2 (crew_member_works_through_mailbox REAR_LEFT
                   [completion FRONT_LEFT; change_tire_message REAR_LEFT]
                   [stop_message; change_tire_message FRONT_LEFT] 5 _ _)
            stop_message [change_tire_message FRONT_LEFT] eq_refl eq_refl).
  - repeat constructor; try discriminate.
    intros _. exists EngineerQ. split; [reflexivity | discriminate].
  - cbn. lia.
Defined.

(** A work message that names the member's own mailbox as reply queue is
    outside the theorem: the completion message comes back to the member,
    behind the stop message here, and stays in the mailbox. *)
Example crew_member_reply_to_own_mailbox :
  fst (PitCrewMember_run_alone 5
         (mkPitCrewMember REAR_LEFT
            [mkMessage CHANGE_TIRE (Some REAR_LEFT) (Some (CrewQ REAR_LEFT));
             stop_message]
            CrewReceiving))
  = mkPitCrewMember REAR_LEFT [completion REAR_LEFT] CrewFinished.
Proof. vm_compute. reflexivity. Qed.

(** ** The pending set and the completions taken *)

Lemma pending_move σ σ' lst lst' l evs p :
  protocol_move σ σ' lst lst' l evs →
  completion p ∈ queue_gets EngineerQ evs ∨ stage_pending (σ p) = false
  ↔ stage_pending (σ' p) = false.
Proof.
  assert (∀ p0, completion p ∈ [completion p0] ↔ p = p0) as Hone.
  { intros p0. rewrite list_elem_of_singleton. split; [|by intros ->].
    by intros [= ->]. }
  assert (∀ A : Prop, (completion p ∈ @nil Message ∨ A) ↔ A) as Hnil.
  { intros A. split; [|by right]. intros [H|H]; [|done].
    by apply elem_of_nil in H. }
  intros [Hacked -> _ _|p0 Hp0 -> _| _ -> _|p0 Hp0 -> _|p0 Hp0 -> _
         |p0 Hp0 -> _|p0 Hp0 -> _].
  - change (queue_gets EngineerQ stop_puts) with (@nil Message).
    rewrite Hnil, Hacked. done.
  - assert (queue_gets EngineerQ
              (Get EngineerQ (completion p0)
                 :: (if all_acked (set_stage σ p0 Acked)
                     then [Log all_complete_line] else []))
            = [completion p0]) as ->
      by (by destruct (all_acked (set_stage σ p0 Acked))).
    rewrite Hone. destruct (decide (p = p0)) as [->|Hne].
    + rewrite set_stage_eq. cbn. tauto.
    + rewrite set_stage_ne by done. tauto.
  - apply Hnil.
  - cbn. rewrite Hnil. destruct (decide (p = p0)) as [->|Hne].
    + by rewrite set_stage_eq, Hp0.
    + by rewrite set_stage_ne.
  - cbn. rewrite Hnil. destruct (decide (p = p0)) as [->|Hne].
    + by rewrite set_stage_eq, Hp0.
    + by rewrite set_stage_ne.
  - cbn. rewrite Hnil. destruct (decide (p = p0)) as [->|Hne].
    + by rewrite set_stage_eq, Hp0.
    + by rewrite set_stage_ne.
  - cbn. rewrite Hnil. destruct (decide (p = p0)) as [->|Hne].
    + by rewrite set_stage_eq, Hp0.
    + by rewrite set_stage_ne.
Qed.

Lemma engineer_gets_move σ σ' lst lst' l evs :
  protocol_move σ σ' lst lst' l evs →
  queue_gets EngineerQ evs = []
  ∨ ∃ p0, queue_gets EngineerQ evs = [completion p0] ∧ σ p0 = Signalled.
Proof.
  intros [| p0 Hp0 _ _ | | | | |]; try (by left).
  right. exists p0. split; [|done].
  by destruct (all_acked σ').
Qed.

(** X12: in every run the engineer has taken from its mailbox only
    completion messages, at most one for each position, and a position is
    pending exactly as long as none has been taken for it.  Once
    [coordinate_pit_stop] has returned it has taken exactly one for each
    of the four positions, in some order. *)
Theorem completions_taken_once sched s :
  exec sched main_init = Some s →
  ∃ acked,
    queue_gets EngineerQ (trace s) = completion <$> acked
    ∧ NoDup acked
    ∧ (∀ p, p ∈ acked ↔ p ∉ pending_changes (engineer s))
    ∧ (ctl (engineer s) = EngReturned → acked ≡ₚ all_Position).
Proof.
  intros Hexec. destruct sched as [|l0 sched0].
  { injection Hexec as <-. exists []. split; [done|].
    split; [constructor|]. split; [|discriminate].
    intros p. split; [intros H; by apply elem_of_nil in H|].
    intros Hnot. exfalso. apply Hnot.
    change (pending_changes (engineer main_init))
      with (list_to_set (C:=gset Position) all_Position).
    apply elem_of_list_to_set. destruct p; set_solver. }
  destruct (exec_stage_ind
              (fun s σ _ =>
                 ∃ acked,
                   queue_gets EngineerQ (trace s) = completion <$> acked
                   ∧ NoDup acked
                   ∧ ∀ p, p ∈ acked ↔ stage_pending (σ p) = false))
    with (sched := l0 :: sched0) (s := s)
    as (σ & lst & Hinv & acked & Hgets & Hnd & Hin); try done.
  - exists []. split; [done|]. split; [constructor|].
    intros p. split; [intros H; by apply elem_of_nil in H | done].
  - intros sched1 s1 σ lst l s' σ' lst' evs _ (acked & Hgets & Hnd & Hin)
      _ Htr Hmove.
    pose proof (fun p => pending_move _ _ _ _ _ _ p Hmove) as Hpend.
    destruct (engineer_gets_move _ _ _ _ _ _ Hmove)
      as [Hnone | (p0 & Hone & Hp0)].
    + exists acked. rewrite Htr, queue_gets_app, Hnone, app_nil_r.
      split; [done|]. split; [done|]. intros p.
      rewrite Hin, <- Hpend, Hnone. split; [by right|].
      intros [H|H]; [by apply elem_of_nil in H | done].
    + exists (acked ++ [p0]).
      rewrite Htr, queue_gets_app, Hone, Hgets, fmap_app.
      split; [done|]. split.
      * apply NoDup_app. split; [done|]. split; [|apply NoDup_singleton].
        intros p Hp Hp'. apply list_elem_of_singleton in Hp'. subst p.
        apply Hin in Hp. by rewrite Hp0 in Hp.
      * intros p. rewrite elem_of_app, Hin, <- Hpend, Hone.
        rewrite !list_elem_of_singleton. split.
        -- intros [H | ->]; [by right | by left].
        -- intros [[= ->] | H]; [by right | by left].
  - exists acked. split; [done|]. split; [done|]. split.
    + intros p. rewrite Hin, (ri_pending _ _ _ _ Hinv).
      destruct (stage_pending (σ p)); split; done.
    + intros Hret. pose proof (ri_ctl _ _ _ _ Hinv) as Hok.
      rewrite Hret in Hok. cbn in Hok.
      apply NoDup_Permutation; [done | |].
      * repeat constructor; set_solver.
      * intros p. split.
        -- intros _. destruct p; set_solver.
        -- intros _. apply Hin. by rewrite Hok.
Qed.

Lemma completions_taken_once_witness :
  ∃ acked,
    queue_gets EngineerQ (trace full_system) = completion <$> acked
    ∧ NoDup acked
    ∧ (∀ p, p ∈ acked ↔ p ∉ pending_changes (engineer full_system))
    ∧ (ctl (engineer full_system) = EngReturned → acked ≡ₚ all_Position).
Proof.
  apply (completions_taken_once full_schedule).
  vm_compute. reflexivity.
Defined.

(** ** The aggregation loop and other messages *)

Lemma aggregate_sets_nonempty arrivals self :
  fst (aggregate arrivals self) ≠ [].
Proof.
  destruct arrivals as [|m arrivals]; cbn [aggregate]; [done|].
  destruct (RaceEngineer_run (put EngineerQ m self))
    as [| |self' evs|e self' evs]; try done.
  by destruct (aggregate arrivals self').
Qed.

Lemma aggregate_nothing_pending arrivals self :
  pending_changes self = ∅ →
  aggregate arrivals self = ([pending_changes self], RunReturn).
Proof.
  intros Hpend.
  destruct arrivals as [|m arrivals]; cbn [aggregate].
  - by rewrite (proj2 (RaceEngineer_run_return self) Hpend).
  - by rewrite (proj2 (RaceEngineer_run_return (put EngineerQ m self)) Hpend).
Qed.

Lemma RaceEngineer_run_next_mailbox self self' evs :
  RaceEngineer_run self = RunNext self' evs →
  mailbox self' = tail (mailbox self).
Proof.
  unfold RaceEngineer_run. case_decide; [discriminate|].
  destruct (mailbox self) as [|m rest]; [discriminate|].
  destruct (msg_type m); try by intros [= <- _].
  destruct (position m) as [p|]; [|discriminate].
  repeat case_decide; try discriminate; by intros [= <- _].
Qed.

(** X13: for the loop of [run] fed from an empty mailbox, the messages
    that are not [TIRE_CHANGED] make no difference: with them or without
    them among the arrivals the loop stands in the same way after the last
    arrival and the pending set is the same. *)
Theorem aggregate_ignores_other_messages (arrivals : list Message)
    (self : RaceEngineer) :
  mailbox self = [] →
  snd (aggregate arrivals self)
  = snd (aggregate (filter (fun m => msg_type m = TIRE_CHANGED) arrivals)
           self)
  ∧ last (fst (aggregate arrivals self))
    = last (fst (aggregate
                   (filter (fun m => msg_type m = TIRE_CHANGED) arrivals)
                   self)).
Proof.
  revert self. induction arrivals as [|m arrivals IH]; intros self Hbox;
    [done|].
  rewrite filter_cons. case_decide as Hty.
  - (* a completion message: the same turn on both sides *)
    cbn [aggregate].
    destruct (RaceEngineer_run (put EngineerQ m self))
      as [| |self' evs|e self' evs] eqn:Hrun; try done.
    assert (mailbox self' = []) as Hbox'.
    { apply RaceEngineer_run_next_mailbox in Hrun.
      cbn in Hrun. by rewrite Hbox in Hrun. }
    destruct (IH self' Hbox') as [Hout Hlast].
    pose proof (aggregate_sets_nonempty arrivals self') as Hne1.
    pose proof (aggregate_sets_nonempty
                  (filter (fun m => msg_type m = TIRE_CHANGED) arrivals)
                  self') as Hne2.
    destruct (aggregate arrivals self') as [sets1 out1].
    destruct (aggregate _ self') as [sets2 out2].
    cbn in *. split; [done|].
    destruct sets1, sets2; try done.
  - (* another message: dropped *)
    destruct (decide (pending_changes self = ∅)) as [Hpend|Hpend].
    { by rewrite !aggregate_nothing_pending. }
    assert (RaceEngineer_run (put EngineerQ m self)
            = RunNext self [Get EngineerQ m]) as Hrun.
    { unfold RaceEngineer_run. destruct self as [mb crew pend c].
      cbn in *. subst mb. rewrite decide_False by done. cbn.
      destruct (msg_type m); done. }
    cbn [aggregate]. rewrite Hrun.
    destruct (IH self Hbox) as [Hout Hlast].
    pose proof (aggregate_sets_nonempty arrivals self) as Hne.
    destruct (aggregate arrivals self) as [sets1 out1].
    cbn in *. split; [done|].
    destruct sets1; done.
Qed.

Lemma aggregate_ignores_other_messages_witness :
  snd (aggregate [stop_message; completion REAR_LEFT] dispatched_engineer)
  = snd (aggregate
           (filter (fun m => msg_type m = TIRE_CHANGED)
              [stop_message; completion REAR_LEFT])
           dispatched_engineer).
Proof.
  refine (proj1 (aggregate_ignores_other_messages
                   [stop_message; completion REAR_LEFT]
                   dispatched_engineer _)).
  vm_compute. reflexivity.
Defined.
